(** * The extraction pipeline of [Scripts/outlook_mapi.py]

    A shallow embedding of the subject classifier ([subject_matches]), the
    text normalizer ([html_to_text]), the triplet extractor
    ([_TRIPLET_REGEX], [extract_triplets_from_text]), the result assembler
    ([build_dataframe]) and the entry point ([get_esker_vendor_updates_df])
    together with the properties the specification states about them. *)

From Stdlib Require Import String Ascii List NArith ZArith Bool Arith Lia.
Import ListNotations.

Local Open Scope N_scope.

(** ** Text

    A Python [str] is a sequence of Unicode code points. *)

Definition cp := N.
Definition text := list cp.

(** [py "abc"] is the text of an ASCII literal of the source. *)
Definition py (s : string) : text :=
  List.map N_of_ascii (list_ascii_of_string s).

Definition LF : cp := 10.
Definition CR : cp := 13.
Definition TAB : cp := 9.
Definition SP : cp := 32.

(** [x or ""] on an argument that may be [None]. *)
Definition or_empty (x : option text) : text :=
  match x with
  | Some s => s
  | None => []
  end.

Definition in_ranges (T : list (N * N)) (c : cp) : bool :=
  existsb (fun r => (fst r <=? c) && (c <=? snd r)) T.

(** The code points for which [str.isspace] holds; the same set is [\s] of a
    [str] pattern and what [str.strip()] removes. *)
Definition whitespace_ranges : list (N * N) :=
  [ (9, 13); (28, 32); (133, 133); (160, 160); (5760, 5760); (8192, 8202);
    (8232, 8233); (8239, 8239); (8287, 8287); (12288, 12288) ].

Definition is_space (c : cp) : bool := in_ranges whitespace_ranges c.

(** The code points of category Nd, which is what [\d] of a [str] pattern
    matches (no [re.ASCII] flag is given); table of Unicode 14.0. *)
Definition decimal_ranges : list (N * N) :=
  [ (48, 57); (1632, 1641); (1776, 1785); (1984, 1993); (2406, 2415);
    (2534, 2543); (2662, 2671); (2790, 2799); (2918, 2927); (3046, 3055);
    (3174, 3183); (3302, 3311); (3430, 3439); (3558, 3567); (3664, 3673);
    (3792, 3801); (3872, 3881); (4160, 4169); (4240, 4249); (6112, 6121);
    (6160, 6169); (6470, 6479); (6608, 6617); (6784, 6793); (6800, 6809);
    (6992, 7001); (7088, 7097); (7232, 7241); (7248, 7257); (42528, 42537);
    (43216, 43225); (43264, 43273); (43472, 43481); (43504, 43513);
    (43600, 43609); (44016, 44025); (65296, 65305); (66720, 66729);
    (68912, 68921); (69734, 69743); (69872, 69881); (69942, 69951);
    (70096, 70105); (70384, 70393); (70736, 70745); (70864, 70873);
    (71248, 71257); (71360, 71369); (71472, 71481); (71904, 71913);
    (72016, 72025); (72784, 72793); (73040, 73049); (73120, 73129);
    (92768, 92777); (92864, 92873); (93008, 93017); (120782, 120831);
    (123200, 123209); (123632, 123641); (125264, 125273); (130032, 130041) ].

Definition is_decimal (c : cp) : bool := in_ranges decimal_ranges c.

(** [[A-Z]] and [[0-9]]. *)
Definition is_upper_AZ (c : cp) : bool := (65 <=? c) && (c <=? 90).
Definition is_ascii_digit (c : cp) : bool := (48 <=? c) && (c <=? 57).

Definition is_char (x : cp) (c : cp) : bool := c =? x.

(** A literal letter under [(?i)]: the letter itself or its upper-case
    form (for b, r and p no other code point folds to them). *)
Definition is_letter_i (lowercase : cp) (c : cp) : bool :=
  (c =? lowercase) || (c =? lowercase - 32).

Definition mem (set : text) (c : cp) : bool := existsb (N.eqb c) set.

(** ** String operations *)

Fixpoint startswith (prefix s : text) : bool :=
  match prefix, s with
  | [], _ => true
  | _ :: _, [] => false
  | a :: prefix', b :: s' => (a =? b) && startswith prefix' s'
  end.

(** [needle in hay]. *)
Fixpoint contains (needle hay : text) : bool :=
  startswith needle hay ||
  match hay with
  | [] => false
  | _ :: hay' => contains needle hay'
  end.

Fixpoint lstrip_by (p : cp -> bool) (s : text) : text :=
  match s with
  | c :: s' => if p c then lstrip_by p s' else s
  | [] => []
  end.

Definition rstrip_by (p : cp -> bool) (s : text) : text :=
  rev (lstrip_by p (rev s)).

Definition strip_by (p : cp -> bool) (s : text) : text :=
  rstrip_by p (lstrip_by p s).

(** [s.strip()] and [s.strip(chars)]. *)
Definition strip (s : text) : text := strip_by is_space s.
Definition strip_chars (chars : text) (s : text) : text := strip_by (mem chars) s.

(** ** Regular expressions

    The fragment of [re] the module uses.  Every quantifier of the source
    ranges over a single character or class, which is what [Repeat] holds;
    [EndLine] is [$] under [re.MULTILINE]; a lookahead is atomic. *)

Inductive regex : Type :=
| Class (p : cp -> bool)
| Cat (r1 r2 : regex)
| Alt (r1 r2 : regex)
| Repeat (greedy : bool) (lo : nat) (hi : option nat) (p : cp -> bool)
| Group (name : string) (r : regex)
| Lookahead (r : regex)
| EndLine.

Definition groups := list (string * text).
Definition outcome := option (text * groups).

Definition may_take (hi : option nat) : bool :=
  match hi with
  | Some O => false
  | _ => true
  end.

(** Greedy repetition: take one more character first, stop when that fails. *)
Fixpoint rep_greedy (p : cp -> bool) (lo : nat) (hi : option nat) (s : text)
    (k : text -> outcome) : outcome :=
  let stop := match lo with O => k s | S _ => None end in
  match s with
  | c :: s' =>
      if may_take hi && p c then
        match rep_greedy p (pred lo) (option_map pred hi) s' k with
        | Some o => Some o
        | None => stop
        end
      else stop
  | [] => stop
  end.

(** Lazy repetition: stop first, take one more character when that fails. *)
Fixpoint rep_lazy (p : cp -> bool) (lo : nat) (hi : option nat) (s : text)
    (k : text -> outcome) : outcome :=
  match s with
  | c :: s' =>
      let more :=
        if may_take hi && p c
        then rep_lazy p (pred lo) (option_map pred hi) s' k
        else None in
      match lo with
      | O => match k s with Some o => Some o | None => more end
      | S _ => more
      end
  | [] => match lo with O => k s | S _ => None end
  end.

(** The backtracking matcher, in continuation-passing style: [run r s g k]
    matches [r] at the front of [s] and hands the rest of the input and the
    groups to [k]; alternatives are tried in the order of the engine. *)
Fixpoint run (r : regex) (s : text) (g : groups)
    (k : text -> groups -> outcome) : outcome :=
  match r with
  | Class p =>
      match s with
      | c :: s' => if p c then k s' g else None
      | [] => None
      end
  | Cat r1 r2 => run r1 s g (fun s1 g1 => run r2 s1 g1 k)
  | Alt r1 r2 =>
      match run r1 s g k with
      | Some o => Some o
      | None => run r2 s g k
      end
  | Repeat true lo hi p => rep_greedy p lo hi s (fun s' => k s' g)
  | Repeat false lo hi p => rep_lazy p lo hi s (fun s' => k s' g)
  | Group n r1 =>
      run r1 s g
        (fun s' g' => k s' ((n, firstn (length s - length s') s) :: g'))
  | Lookahead r1 =>
      match run r1 s g (fun s' g' => Some (s', g')) with
      | Some (_, g') => k s g'
      | None => None
      end
  | EndLine =>
      match s with
      | [] => k s g
      | c :: _ => if c =? LF then k s g else None
      end
  end.

(** A match that starts at the front of [s]: the rest of the input after it
    and its groups. *)
Definition match_at (r : regex) (s : text) : outcome :=
  run r s [] (fun s' g => Some (s', g)).

(** [m.group(name)]. *)
Fixpoint group (g : groups) (name : string) : text :=
  match g with
  | (n, t) :: g' => if String.eqb n name then t else group g' name
  | [] => []
  end.

(** The left-to-right scan shared by [finditer] and [re.sub]: the text cut
    into matches and the characters between them.  The next search starts
    where the previous match ended ([skip] characters remain to be passed
    over).  No pattern of the module matches the empty string, so the rule
    of the engine for empty matches is never exercised; the scan then moves
    on by one character. *)
Inductive piece : Type :=
| Gap (c : cp)
| Hit (matched : text) (g : groups).

Fixpoint scan (r : regex) (s : text) (skip : nat) : list piece :=
  match skip with
  | S n =>
      match s with
      | _ :: s' => scan r s' n
      | [] => []
      end
  | O =>
      match match_at r s with
      | Some (rest, g) =>
          let len := (length s - length rest)%nat in
          Hit (firstn len s) g ::
            match s with
            | [] => []
            | c :: s' =>
                match len with
                | O => Gap c :: scan r s' 0
                | S n => scan r s' n
                end
            end
      | None =>
          match s with
          | [] => []
          | c :: s' => Gap c :: scan r s' 0
          end
      end
  end.

Fixpoint hits (ps : list piece) : list groups :=
  match ps with
  | Gap _ :: ps' => hits ps'
  | Hit _ g :: ps' => g :: hits ps'
  | [] => []
  end.

(** [pattern.finditer(s)], each match object given by its groups. *)
Definition finditer (r : regex) (s : text) : list groups :=
  hits (scan r s 0).

(** [re.sub(pattern, repl, s)] for a replacement without group references. *)
Definition re_sub (r : regex) (repl : text) (s : text) : text :=
  flat_map (fun p => match p with Gap c => [c] | Hit _ _ => repl end)
           (scan r s 0).

(** ** Body text extraction and parsing *)

Definition plus (p : cp -> bool) : regex := Repeat true 1 None p.
Definition star (p : cp -> bool) : regex := Repeat true 0 None p.
Definition opt (p : cp -> bool) : regex := Repeat true 0 (Some 1%nat) p.
Definition exactly (n : nat) (p : cp -> bool) : regex := Repeat true n (Some n) p.
Definition chr (a : ascii) : regex := Class (is_char (N_of_ascii a)).

Definition not_space (c : cp) : bool := negb (is_space c).
Definition not_crlf (c : cp) : bool := negb ((c =? CR) || (c =? LF)).

Definition _TRIPLET_REGEX : regex :=
  Cat (Group "company" (Cat (exactly 2 is_upper_AZ) (exactly 2 is_decimal)))
 (Cat (plus is_space)
 (Cat (Group "vendor" (Repeat true 3 (Some 40%nat) not_space))
 (Cat (plus is_space)
 (Cat (Group "name" (Repeat false 1 None not_crlf))
      (Lookahead (Alt EndLine (Cat (opt (is_char CR)) (Class (is_char LF)))))
 )))).

Definition re_br : regex :=
  Cat (chr "<") (Cat (star is_space) (Cat (Class (is_letter_i 98))
 (Cat (Class (is_letter_i 114)) (Cat (star is_space) (Cat (opt (is_char 47))
 (Cat (star is_space) (chr ">"))))))).

Definition re_p_close : regex :=
  Cat (chr "<") (Cat (chr "/") (Cat (star is_space)
 (Cat (Class (is_letter_i 112)) (Cat (star is_space) (chr ">"))))).

Definition re_p_open : regex :=
  Cat (chr "<") (Cat (star is_space) (Cat (Class (is_letter_i 112))
 (Cat (star (fun c => negb (c =? 62))) (chr ">")))).

Definition re_tag : regex :=
  Cat (chr "<") (Cat (plus (fun c => negb (c =? 62))) (chr ">")).

Definition re_blanks : regex := plus (fun c => (c =? SP) || (c =? TAB)).
Definition re_spaces : regex := plus is_space.

Definition html_to_text (html : option text) : text :=
  match html with
  | None | Some [] => []
  | Some html =>
      let txt := re_sub re_br [LF] html in
      let txt := re_sub re_p_close [LF] txt in
      let txt := re_sub re_p_open [] txt in
      let txt := re_sub re_tag [SP] txt in
      strip (re_sub re_blanks [SP] txt)
  end.

Definition triplet : Type := text * text * text.

Definition triplet_of_match (m : groups) : triplet :=
  let company := strip (group m "company") in
  let vendor := strip (group m "vendor") in
  let name := strip (group m "name") in
  let name := strip_chars (py " -|") (re_sub re_spaces [SP] name) in
  (company, vendor, name).

Definition extract_triplets_from_text (t : option text) : list triplet :=
  List.map triplet_of_match (finditer _TRIPLET_REGEX (or_empty t)).

(** ** Subject keyword and phrase matching *)

Definition kw_esker : text := py "esker".
Definition kw_vendor : text := py "vendor".
Definition kw_update : text := py "update".
Definition ph_esker_vendor_update : text := py "esker vendor update".
Definition ph_esker_vendor : text := py "esker vendor".

(** The list objects the module binds to [DEFAULT_SUBJECT_KEYWORDS] and
    [DEFAULT_SUBJECT_PHRASES] when it is loaded. *)
Definition default_keywords : list text := [kw_esker; kw_vendor; kw_update].
Definition default_phrases : list text := [ph_esker_vendor_update; ph_esker_vendor].

(** [str.lower] on ASCII text: A-Z go to a-z, nothing else changes. *)
Definition ascii_lower_cp (c : cp) : cp :=
  if is_upper_AZ c then c + 32 else c.
Definition ascii_lower (s : text) : text := List.map ascii_lower_cp s.
Definition is_ascii (s : text) : bool := forallb (fun c => c <? 128) s.

(** What is assumed of [str.lower]: its value on ASCII text.  On other text
    the Unicode case mapping applies, which the development leaves open. *)
Definition lower_on_ascii (lower : text -> text) : Prop :=
  forall s, is_ascii s = true -> lower s = ascii_lower s.

Section Classifier.

(** [str.lower]. *)
Variable str_lower : text -> text.

(** [kw.lower() in s]. *)
Definition occurs_in (s : text) (w : text) : bool :=
  contains (str_lower w) s.

Definition subject_matches (subject : option text)
    (keywords phrases : list text) (min_keyword_hits : Z) : bool :=
  let s := str_lower (or_empty subject) in
  if existsb (occurs_in s) phrases then true
  else
    let hits := length (filter (occurs_in s) keywords) in
    (Z.of_nat hits >=? min_keyword_hits)%Z.

End Classifier.

(** ** The result table

    pandas is not part of the repository; the three operations used by
    [build_dataframe] follow its documentation.  A frame is its column
    labels, its row labels and its rows. *)

Record DataFrame : Type := {
  columns : list string;
  index : list nat;
  rows : list triplet
}.

Definition text_eq_dec : forall a b : text, {a = b} + {a <> b} :=
  list_eq_dec N.eq_dec.

Definition triplet_eq_dec : forall a b : triplet, {a = b} + {a <> b}.
Proof. decide equality; [apply text_eq_dec | decide equality; apply text_eq_dec]. Defined.

Definition seen_in (seen : list triplet) (x : triplet) : bool :=
  if in_dec triplet_eq_dec x seen then true else false.

(** [pd.DataFrame(data, columns=cols)]: the rows labelled 0, 1, 2, ... *)
Definition pd_DataFrame (data : list triplet) (cols : list string) : DataFrame :=
  {| columns := cols; index := seq 0 (length data); rows := data |}.

(** [df.empty]: some axis has length 0. *)
Definition df_empty (df : DataFrame) : bool :=
  (length (columns df) =? 0)%nat || (length (index df) =? 0)%nat.

(** [df.duplicated()] with [keep='first']: a row is marked when an equal row
    came before it. *)
Fixpoint duplicated_from (seen : list triplet) (l : list triplet) : list bool :=
  match l with
  | [] => []
  | x :: l' => seen_in seen x :: duplicated_from (x :: seen) l'
  end.

Definition duplicated (df : DataFrame) : list bool := duplicated_from [] (rows df).

(** Selection by a boolean mask. *)
Fixpoint select {A : Type} (mask : list bool) (l : list A) : list A :=
  match mask, l with
  | b :: mask', x :: l' => if b then x :: select mask' l' else select mask' l'
  | _, _ => []
  end.

(** [df.drop_duplicates()]: the rows that are not marked, labels kept. *)
Definition drop_duplicates (df : DataFrame) : DataFrame :=
  let keep := List.map negb (duplicated df) in
  {| columns := columns df;
     index := select keep (index df);
     rows := select keep (rows df) |}.

(** [df.reset_index(drop=True)]. *)
Definition reset_index (df : DataFrame) : DataFrame :=
  {| columns := columns df;
     index := seq 0 (length (rows df));
     rows := rows df |}.

Definition result_columns : list string :=
  ["company_code"; "vendor_number"; "name"]%string.

Definition build_dataframe (rs : list triplet) : DataFrame :=
  let df := pd_DataFrame rs result_columns in
  if negb (df_empty df) then reset_index (drop_duplicates df) else df.

(** ** Module state

    The module has three variables of its own: the two default lists and
    the compiled pattern.  The entry point assigns the first two names;
    [subject_matches] keeps the default values its [def] bound; the
    extractor looks the pattern up under its name each time it is called.
    A list is an object in the store, a name or a default value holds a
    reference to it; the pattern object cannot be changed and is held as it
    is. *)

Definition loc := nat.

Record module_state : Type := {
  store : list (list text);
  DEFAULT_SUBJECT_KEYWORDS : loc;
  DEFAULT_SUBJECT_PHRASES : loc;
  subject_matches_defaults : loc * loc * Z;
  TRIPLET_REGEX_global : regex
}.

Definition M (A : Type) : Type := module_state -> A * module_state.

Definition ret {A : Type} (a : A) : M A := fun st => (a, st).

Definition bind {A B : Type} (m : M A) (f : A -> M B) : M B :=
  fun st => let (a, st') := m st in f a st'.

Notation "x <- m ;; k" := (bind m (fun x => k))
  (at level 61, m at next level, right associativity).
Notation "m ;;; k" := (bind m (fun _ => k))
  (at level 61, right associativity).

(** The items of the list object at [l]. *)
Definition items (st : module_state) (l : loc) : list text :=
  nth l (store st) [].

(** [list(iterable)]: a new list object. *)
Definition new_list (xs : list text) : M loc :=
  fun st =>
    (length (store st),
     {| store := store st ++ [xs];
        DEFAULT_SUBJECT_KEYWORDS := DEFAULT_SUBJECT_KEYWORDS st;
        DEFAULT_SUBJECT_PHRASES := DEFAULT_SUBJECT_PHRASES st;
        subject_matches_defaults := subject_matches_defaults st;
        TRIPLET_REGEX_global := TRIPLET_REGEX_global st |}).

Definition assign_DEFAULT_SUBJECT_KEYWORDS (l : loc) : M unit :=
  fun st =>
    (tt,
     {| store := store st;
        DEFAULT_SUBJECT_KEYWORDS := l;
        DEFAULT_SUBJECT_PHRASES := DEFAULT_SUBJECT_PHRASES st;
        subject_matches_defaults := subject_matches_defaults st;
        TRIPLET_REGEX_global := TRIPLET_REGEX_global st |}).

Definition assign_DEFAULT_SUBJECT_PHRASES (l : loc) : M unit :=
  fun st =>
    (tt,
     {| store := store st;
        DEFAULT_SUBJECT_KEYWORDS := DEFAULT_SUBJECT_KEYWORDS st;
        DEFAULT_SUBJECT_PHRASES := l;
        subject_matches_defaults := subject_matches_defaults st;
        TRIPLET_REGEX_global := TRIPLET_REGEX_global st |}).

(** The state once the module is loaded: the two lists, the names bound to
    them, the defaults of [subject_matches] bound to the same objects, and
    the name [_TRIPLET_REGEX] bound to the compiled pattern. *)
Definition module_loaded : module_state :=
  {| store := [default_keywords; default_phrases];
     DEFAULT_SUBJECT_KEYWORDS := 0%nat;
     DEFAULT_SUBJECT_PHRASES := 1%nat;
     subject_matches_defaults := (0%nat, 1%nat, 1%Z);
     TRIPLET_REGEX_global := _TRIPLET_REGEX |}.

(** A message of the mail store: its subject, the time it was received (a
    timestamp in microseconds, when it converts to one), its bodies. *)
Record Message : Type := {
  Subject : option text;
  ReceivedTime : option Z;
  Body : option text;
  HTMLBody : option text
}.

(** The body of [extract_triplets_from_text] with the pattern it finds
    under the name [_TRIPLET_REGEX]. *)
Definition extract_triplets_with (pattern : regex) (t : option text) : list triplet :=
  List.map triplet_of_match (finditer pattern (or_empty t)).

(** A call of [extract_triplets_from_text]: the name [_TRIPLET_REGEX] is
    looked up in the module when the call runs. *)
Definition extract_triplets_from_text_call (t : option text) : M (list triplet) :=
  fun st => (extract_triplets_with (TRIPLET_REGEX_global st) t, st).

Definition extract_rows_from_email (msg : Message) : list triplet :=
  let body_text := strip (or_empty (Body msg)) in
  let body_text :=
    if (length body_text =? 0)%nat || (length body_text <? 5)%nat
    then html_to_text (Some (or_empty (HTMLBody msg)))
    else body_text in
  extract_triplets_from_text (Some body_text).

(** A call of [extract_rows_from_email], which calls the extractor. *)
Definition extract_rows_from_email_call (msg : Message) : M (list triplet) :=
  let body_text := strip (or_empty (Body msg)) in
  let body_text :=
    if (length body_text =? 0)%nat || (length body_text <? 5)%nat
    then html_to_text (Some (or_empty (HTMLBody msg)))
    else body_text in
  extract_triplets_from_text_call (Some body_text).

(** The loop of the entry point over the messages found:
    [all_rows.extend(rows)] for each of them. *)
Fixpoint rows_of_messages (msgs : list Message) : M (list triplet) :=
  match msgs with
  | [] => ret []
  | msg :: msgs' =>
      rows <- extract_rows_from_email_call msg ;;
      all_rows <- rows_of_messages msgs' ;;
      ret (rows ++ all_rows)
  end.

Section Pipeline.

Variable str_lower : text -> text.

(** [subject_matches(subject, min_keyword_hits=n)]: keywords and phrases
    come from the defaults of the function. *)
Definition subject_matches_call (subject : option text) (n : Z) : M bool :=
  fun st =>
    let '(kw, ph, _) := subject_matches_defaults st in
    (subject_matches str_lower subject (items st kw) (items st ph) n, st).

(** The loop of [find_matching_emails_inbox] over the messages the mail
    store enumerates: a message older than the cutoff is passed over, the
    others are yielded when their subject matches. *)
Fixpoint find_matching_emails_inbox (collection : list Message)
    (cutoff_ts : Z) (min_keyword_hits : Z) : M (list Message) :=
  match collection with
  | [] => ret []
  | msg :: collection' =>
      let too_old :=
        match ReceivedTime msg with
        | Some ts => (ts <? cutoff_ts)%Z
        | None => false
        end in
      if too_old
      then find_matching_emails_inbox collection' cutoff_ts min_keyword_hits
      else
        let subject := or_empty (Subject msg) in
        b <- subject_matches_call (Some subject) min_keyword_hits ;;
        found <- find_matching_emails_inbox collection' cutoff_ts min_keyword_hits ;;
        ret (if b then msg :: found else found)
  end.

(** The two assignments at the head of the entry point. *)
Definition rebind_defaults (subject_keywords subject_phrases : list text) : M unit :=
  kw <- new_list subject_keywords ;;
  assign_DEFAULT_SUBJECT_KEYWORDS kw ;;;
  ph <- new_list subject_phrases ;;
  assign_DEFAULT_SUBJECT_PHRASES ph.

(** [inbox] is what the mail store enumerates, [now] the clock. *)
Definition get_esker_vendor_updates_df (inbox : list Message) (now : Z)
    (minutes_back : Z) (min_subject_keyword_hits : Z)
    (subject_keywords subject_phrases : list text) : M DataFrame :=
  rebind_defaults subject_keywords subject_phrases ;;;
  let cutoff_ts := (now - minutes_back * 60000000)%Z in
  msgs <- find_matching_emails_inbox inbox cutoff_ts min_subject_keyword_hits ;;
  all_rows <- rows_of_messages msgs ;;
  ret (build_dataframe all_rows).

(** The states the module can be in: loaded, or after a run of the entry
    point. *)
Inductive reachable : module_state -> Prop :=
| reach_loaded : reachable module_loaded
| reach_run st inbox now minutes_back n kws phs :
    reachable st ->
    reachable (snd (get_esker_vendor_updates_df inbox now minutes_back n kws phs st)).

End Pipeline.

(** ** What a match is

    The declarative reading of the patterns, against which the
    backtracking matcher is checked: [Matches r s s' g g'] says that [r]
    matches the front of [s] up to [s'] and takes the groups from [g] to
    [g']. *)

Definition within (hi : option nat) (n : nat) : Prop :=
  match hi with
  | Some h => (n <= h)%nat
  | None => True
  end.

Inductive Matches : regex -> text -> text -> groups -> groups -> Prop :=
| M_Class p c s g :
    p c = true -> Matches (Class p) (c :: s) s g g
| M_Cat r1 r2 s s1 s2 g g1 g2 :
    Matches r1 s s1 g g1 -> Matches r2 s1 s2 g1 g2 ->
    Matches (Cat r1 r2) s s2 g g2
| M_Alt_l r1 r2 s s' g g' :
    Matches r1 s s' g g' -> Matches (Alt r1 r2) s s' g g'
| M_Alt_r r1 r2 s s' g g' :
    Matches r2 s s' g g' -> Matches (Alt r1 r2) s s' g g'
| M_Repeat gr lo hi p pre s g :
    forallb p pre = true -> (lo <= length pre)%nat -> within hi (length pre) ->
    Matches (Repeat gr lo hi p) (pre ++ s) s g g
| M_Group n r s s' g g' :
    Matches r s s' g g' ->
    Matches (Group n r) s s' g ((n, firstn (length s - length s') s) :: g')
| M_Lookahead r s s' g g' :
    Matches r s s' g g' -> Matches (Lookahead r) s s g g'
| M_EndLine_end g :
    Matches EndLine [] [] g g
| M_EndLine_lf s g :
    Matches EndLine (LF :: s) (LF :: s) g g.

(** Whitespace runs collapsed: every whitespace character is a space, and
    what follows it is not whitespace. *)
Fixpoint single_spaced (s : text) : bool :=
  match s with
  | [] => true
  | c :: s' =>
      (negb (is_space c) ||
       ((c =? SP) && match s' with [] => true | d :: _ => negb (is_space d) end))
      && single_spaced s'
  end.

(** No character of [set] at either end. *)
Definition trimmed_of (set : text) (s : text) : bool :=
  match s with
  | [] => true
  | c :: _ => negb (mem set c) && negb (mem set (last s c))
  end.

Definition separators : text := py " -|".

(** What the extractor does to the raw text of the name group. *)
Definition clean_name (raw : text) : text :=
  strip_chars separators (re_sub re_spaces [SP] (strip raw)).

(** Where a line ends: at the end of the text, before LF, before CR LF. *)
Definition at_line_end (rest : text) : Prop :=
  rest = [] \/ (exists r, rest = LF :: r) \/ (exists r, rest = CR :: LF :: r).

(** The lines of a text: the pieces between its line feeds. *)
Fixpoint lines_from (cur : text) (s : text) : list text :=
  match s with
  | [] => [rev cur]
  | c :: s' => if c =? LF then rev cur :: lines_from [] s' else lines_from (c :: cur) s'
  end.

Definition lines (s : text) : list text := lines_from [] s.

(** The layout of a match of [_TRIPLET_REGEX] in the text: the company
    code, a run of whitespace, the vendor number, a run of whitespace, the
    raw name, and what follows the match. *)
Record triplet_layout (company ws1 vendor ws2 raw rest : text) : Prop := {
  lay_company :
    exists a b d e, company = [a; b; d; e] /\
      is_upper_AZ a = true /\ is_upper_AZ b = true /\
      is_decimal d = true /\ is_decimal e = true;
  lay_ws1 : ws1 <> [] /\ forallb is_space ws1 = true;
  lay_vendor :
    (3 <= length vendor <= 40)%nat /\ forallb not_space vendor = true;
  lay_ws2 : ws2 <> [] /\ forallb is_space ws2 = true;
  lay_raw : raw <> [] /\ forallb not_crlf raw = true;
  lay_rest : at_line_end rest
}.

(** A company code as the specification words it: two upper-case ASCII
    letters, then two ASCII digits. *)
Definition ascii_company_code (s : text) : bool :=
  match s with
  | [a; b; d; e] =>
      is_upper_AZ a && is_upper_AZ b && is_ascii_digit d && is_ascii_digit e
  | _ => false
  end.

(** The classifier as the specification words it: a phrase decides at
    once, otherwise the distinct keywords found are counted. *)
Definition classifier_as_specified (lower : text -> text) (subject : option text)
    (keywords phrases : list text) (threshold : Z) : bool :=
  let s := lower (or_empty subject) in
  if existsb (fun ph => contains (lower ph) s) phrases then true
  else
    let found := filter (fun kw => contains (lower kw) s) keywords in
    (threshold <=? Z.of_nat (length (nodup text_eq_dec found)))%Z.

(** The rows the frame keeps, given the rows seen before. *)
Definition kept_from (seen : list triplet) (l : list triplet) : list triplet :=
  select (List.map negb (duplicated_from seen l)) l.

(** The assembler as the specification words it: the row at position [i]
    stays exactly when no equal row stands before position [i]. *)
Definition first_occurrences (l : list triplet) : list triplet :=
  List.map snd
    (filter (fun ix => negb (seen_in (firstn (fst ix) l) (snd ix)))
            (combine (seq 0 (length l)) l)).

Definition head_not_space (s : text) : bool :=
  match s with
  | [] => true
  | d :: _ => negb (is_space d)
  end.

(** The defaults of [subject_matches] still refer to the two lists the
    module created when it was loaded, and these hold what they held. *)
Definition defaults_intact (st : module_state) : Prop :=
  subject_matches_defaults st = (0%nat, 1%nat, 1%Z) /\
  exists others, store st = default_keywords :: default_phrases :: others.

(** Whether the loop of [find_matching_emails_inbox] yields a message when
    subjects are classified with the given keywords and phrases. *)
Definition yielded (lower : text -> text) (keywords phrases : list text)
    (cutoff_ts : Z) (n : Z) (msg : Message) : bool :=
  negb match ReceivedTime msg with
       | Some ts => (ts <? cutoff_ts)%Z
       | None => false
       end
  && subject_matches lower (Some (or_empty (Subject msg))) keywords phrases n.

(** The three variables of the module are as they were when it was
    loaded, as far as [subject_matches] and the extractor see them. *)
Definition module_intact (st : module_state) : Prop :=
  defaults_intact st /\ TRIPLET_REGEX_global st = _TRIPLET_REGEX.

(** Two messages received inside the time window of the sample runs: one
    whose subject holds the default phrase, one whose subject holds only
    the word "invoice". *)
Definition message_update_recent : Message :=
  {| Subject := Some (py "FW: Esker Vendor Update - Batch 12");
     ReceivedTime := Some 1000%Z;
     Body := Some (py "SG77 1000338436 SPEEDYLINK LOGISTICS SDN BHD");
     HTMLBody := None |}.

Definition message_invoice_recent : Message :=
  {| Subject := Some (py "Invoice reminder");
     ReceivedTime := Some 1000%Z;
     Body := Some (py "SG80 1000445566 ACME TRADING PTE LTD");
     HTMLBody := None |}.

(** The state after a run of the entry point with a configuration of its
    own, on an empty mail store. *)
Definition state_after_custom_run : module_state :=
  snd (get_esker_vendor_updates_df ascii_lower [] 0 0 1 [py "invoice"] []
         module_loaded).

Definition message_invoice : Message :=
  {| Subject := Some (py "Invoice reminder");
     ReceivedTime := Some 100%Z;
     Body := Some (py "SG77 1000338436 SPEEDYLINK LOGISTICS SDN BHD");
     HTMLBody := None |}.

(** Words that differ in the case of ASCII letters only. *)
Definition same_up_to_case (a b : text) : Prop :=
  is_ascii a = true /\ is_ascii b = true /\ ascii_lower a = ascii_lower b.

(** The text a piece of the scan stands for. *)
Definition piece_text (p : piece) : text :=
  match p with
  | Gap c => [c]
  | Hit m _ => m
  end.

(** Runs of the characters of a class collapsed: every character of the
    class is a space, and what follows it is not of the class. *)
Fixpoint runs_collapsed (p : cp -> bool) (s : text) : bool :=
  match s with
  | [] => true
  | c :: s' =>
      (negb (p c) ||
       ((c =? SP) && match s' with [] => true | d :: _ => negb (p d) end))
      && runs_collapsed p s'
  end.

(** The class of [[ \t]]. *)
Definition is_blank (c : cp) : bool := (c =? SP) || (c =? TAB).

Definition LT : cp := 60.
Definition GT : cp := 62.

(** The next character, if there is one, is not of the class. *)
Definition head_fails (p : cp -> bool) (s : text) : Prop :=
  match s with
  | [] => True
  | c :: _ => p c = false
  end.

(** The end-of-line lookahead of [_TRIPLET_REGEX]. *)
Definition line_end_ahead : regex :=
  Lookahead (Alt EndLine (Cat (opt (is_char CR)) (Class (is_char LF)))).

(** A record as it stands in a text: its fields and the whitespace between
    them. *)
Record record_text : Type := {
  rt_company : text;
  rt_ws1 : text;
  rt_vendor : text;
  rt_ws2 : text;
  rt_name : text
}.

Definition render (r : record_text) : text :=
  rt_company r ++ rt_ws1 r ++ rt_vendor r ++ rt_ws2 r ++ rt_name r.

(** The fields have the form the pattern asks for, and the name begins
    with a character that is not whitespace. *)
Definition well_formed (r : record_text) : Prop :=
  triplet_layout (rt_company r) (rt_ws1 r) (rt_vendor r) (rt_ws2 r) (rt_name r) [] /\
  head_not_space (rt_name r) = true.

Definition record_of (r : record_text) : triplet :=
  (rt_company r, rt_vendor r, clean_name (rt_name r)).

(** Lines joined by a line terminator. *)
Fixpoint join_lines (eol : text) (ls : list text) : text :=
  match ls with
  | [] => []
  | l :: ls' =>
      match ls' with
      | [] => l
      | _ :: _ => l ++ eol ++ join_lines eol ls'
      end
  end.

(** A tag begins here: '<', a character other than '>', and a '>'
    further on; this is where [<[^>]+>] matches. *)
Definition tag_start (s : text) : bool :=
  match s with
  | [] => false
  | c0 :: s0 =>
      (c0 =? LT) &&
      match s0 with
      | [] => false
      | c1 :: t => negb (c1 =? GT) && existsb (fun c => c =? GT) t
      end
  end.

(** No tag begins anywhere in the text. *)
Fixpoint tag_free (s : text) : bool :=
  match s with
  | [] => true
  | c :: s' => negb (tag_start (c :: s')) && tag_free s'
  end.

(** A mail store with the two recent messages and the old one. *)
Definition sample_inbox : list Message :=
  [message_update_recent; message_invoice_recent; message_invoice].

(** ** Sample inputs of the specification *)

Definition text_two_records : text :=
  py "SG77 1000338436 SPEEDYLINK LOGISTICS SDN BHD" ++ [LF] ++
  py "SG80 1000445566 ACME TRADING PTE LTD".

Definition markup_two_records : text :=
  py "<p>SG12 999AAA ABC Co</p><br>SG13 1000 XYZ Inc".

Definition subject_forwarded : text := py "FW: Esker Vendor Update - Batch 12".
Definition subject_newsletter : text := py "Random Newsletter".

(** A record spread over three lines. *)
Definition text_three_lines : text :=
  py "SG12" ++ [LF] ++ py "999AAA" ++ [LF] ++ py "ABC Co".

(** A company code written with the Arabic-Indic digits three and four
    (U+0663, U+0664). *)
Definition text_arabic_indic : text :=
  py "SG" ++ [1635; 1636] ++ py " 1234 Foo".

(** * Properties *)

(** ** Lists and character classes *)

Lemma firstn_length_diff (pre s : text) :
  firstn (length (pre ++ s) - length s) (pre ++ s) = pre.
Proof.
  rewrite length_app, Nat.add_sub.
  rewrite firstn_app, Nat.sub_diag, firstn_all. simpl. apply app_nil_r.
Qed.

Lemma in_ranges_disjoint (T1 T2 : list (N * N)) :
  forallb (fun r1 => forallb (fun r2 => (snd r1 <? fst r2) || (snd r2 <? fst r1)) T2) T1 = true ->
  forall c, in_ranges T1 c = true -> in_ranges T2 c = false.
Proof.
  intros Hd c H1.
  destruct (in_ranges T2 c) eqn:H2; [|reflexivity].
  unfold in_ranges in *.
  apply existsb_exists in H1 as [r1 [In1 B1]].
  apply existsb_exists in H2 as [r2 [In2 B2]].
  rewrite forallb_forall in Hd. specialize (Hd _ In1).
  rewrite forallb_forall in Hd. specialize (Hd _ In2).
  apply andb_true_iff in B1 as [A1 A2], B2 as [A3 A4].
  apply N.leb_le in A1, A2, A3, A4.
  apply orb_true_iff in Hd as [Hd|Hd]; apply N.ltb_lt in Hd; lia.
Qed.

Lemma decimal_not_space c : is_decimal c = true -> is_space c = false.
Proof. apply in_ranges_disjoint. vm_compute. reflexivity. Qed.

Lemma upper_not_space c : is_upper_AZ c = true -> is_space c = false.
Proof.
  intros H. apply (in_ranges_disjoint [(65, 90)]); [vm_compute; reflexivity|].
  unfold in_ranges. simpl. unfold is_upper_AZ in H. rewrite H. reflexivity.
Qed.

(** ** The matcher finds only matches *)

Lemma rep_greedy_sound p lo hi s k o :
  rep_greedy p lo hi s k = Some o ->
  exists pre s', s = pre ++ s' /\ forallb p pre = true /\
    (lo <= length pre)%nat /\ within hi (length pre) /\ k s' = Some o.
Proof.
  revert lo hi. induction s as [|c s IH]; intros lo hi H; simpl in H.
  - destruct lo; [|discriminate].
    exists [], []. repeat split; auto. destruct hi; simpl; lia.
  - assert (Stop : match lo with O => k (c :: s) | S _ => None end = Some o ->
                   exists pre s', c :: s = pre ++ s' /\ forallb p pre = true /\
                     (lo <= length pre)%nat /\ within hi (length pre) /\ k s' = Some o).
    { intros E. destruct lo; [|discriminate].
      exists [], (c :: s). repeat split; auto. destruct hi; simpl; lia. }
    destruct (may_take hi && p c) eqn:T; [|auto].
    apply andb_true_iff in T as [T Pc].
    destruct (rep_greedy p (pred lo) (option_map pred hi) s k) eqn:E; [|auto].
    injection H as ->.
    apply IH in E as (pre & s' & -> & Hp & Hlo & Hhi & Hk).
    exists (c :: pre), s'. simpl. rewrite Pc, Hp. repeat split; auto; [lia|].
    destruct hi as [[|h]|]; simpl in *; try discriminate; lia.
Qed.

Lemma rep_lazy_sound p lo hi s k o :
  rep_lazy p lo hi s k = Some o ->
  exists pre s', s = pre ++ s' /\ forallb p pre = true /\
    (lo <= length pre)%nat /\ within hi (length pre) /\ k s' = Some o.
Proof.
  revert lo hi. induction s as [|c s IH]; intros lo hi H; simpl in H.
  - destruct lo; [|discriminate].
    exists [], []. repeat split; auto. destruct hi; simpl; lia.
  - assert (More : (if may_take hi && p c
                    then rep_lazy p (pred lo) (option_map pred hi) s k
                    else None) = Some o ->
                   exists pre s', c :: s = pre ++ s' /\ forallb p pre = true /\
                     (lo <= length pre)%nat /\ within hi (length pre) /\ k s' = Some o).
    { intros E. destruct (may_take hi && p c) eqn:T; [|discriminate].
      apply andb_true_iff in T as [T Pc].
      apply IH in E as (pre & s' & -> & Hp & Hlo & Hhi & Hk).
      exists (c :: pre), s'. simpl. rewrite Pc, Hp. repeat split; auto; [lia|].
      destruct hi as [[|h]|]; simpl in *; try discriminate; lia. }
    destruct lo; [|auto].
    destruct (k (c :: s)) eqn:E; [|auto].
    injection H as ->.
    exists [], (c :: s). repeat split; auto. destruct hi; simpl; lia.
Qed.

Lemma run_sound r : forall s g k o,
  run r s g k = Some o ->
  exists s' g', Matches r s s' g g' /\ k s' g' = Some o.
Proof.
  induction r as [p|r1 IH1 r2 IH2|r1 IH1 r2 IH2|gr lo hi p|n r IH|r IH|];
    intros s g k o H; simpl in H.
  - destruct s as [|c s]; [discriminate|].
    destruct (p c) eqn:Pc; [|discriminate].
    exists s, g. split; [constructor|]; auto.
  - apply IH1 in H as (s1 & g1 & M1 & H).
    apply IH2 in H as (s2 & g2 & M2 & H).
    exists s2, g2. split; [econstructor|]; eauto.
  - destruct (run r1 s g k) eqn:E.
    + injection H as ->.
      apply IH1 in E as (s' & g' & M1 & H).
      exists s', g'. split; [apply M_Alt_l|]; auto.
    + apply IH2 in H as (s' & g' & M2 & H).
      exists s', g'. split; [apply M_Alt_r|]; auto.
  - assert (exists pre s', s = pre ++ s' /\ forallb p pre = true /\
              (lo <= length pre)%nat /\ within hi (length pre) /\ k s' g = Some o)
      as (pre & s' & -> & Hp & Hlo & Hhi & Hk).
    { destruct gr; [apply rep_greedy_sound in H|apply rep_lazy_sound in H]; exact H. }
    exists s', g. split; [constructor|]; auto.
  - apply IH in H as (s' & g' & M1 & H).
    eexists _, _. split; [constructor; eassumption|]. exact H.
  - destruct (run r s g (fun s' g' => Some (s', g'))) as [[s1 g1]|] eqn:E; [|discriminate].
    apply IH in E as (s' & g' & M1 & E). inversion E; subst s1 g1; clear E.
    exists s, g'. split; [econstructor; eassumption|]. exact H.
  - destruct s as [|c s].
    + exists [], g. split; [constructor|]; auto.
    + destruct (c =? LF) eqn:E; [|discriminate].
      apply N.eqb_eq in E. subst c.
      exists (LF :: s), g. split; [constructor|]; auto.
Qed.

Lemma match_at_sound r s rest g :
  match_at r s = Some (rest, g) -> Matches r s rest [] g.
Proof.
  intros H. apply run_sound in H as (s' & g' & M1 & E).
  inversion E; subst. exact M1.
Qed.

Lemma Matches_suffix r s s' g g' :
  Matches r s s' g g' -> exists pre, s = pre ++ s'.
Proof.
  induction 1.
  - exists [c]. reflexivity.
  - destruct IHMatches1 as [p1 ->], IHMatches2 as [p2 ->].
    exists (p1 ++ p2). now rewrite app_assoc.
  - assumption.
  - assumption.
  - exists pre. reflexivity.
  - assumption.
  - exists []. reflexivity.
  - exists []. reflexivity.
  - exists []. reflexivity.
Qed.

(** Every match the scan reports is a match at some position of the text. *)
Lemma scan_hits r : forall s skip g,
  In g (hits (scan r s skip)) ->
  exists pre s' rest, s = pre ++ s' /\ match_at r s' = Some (rest, g).
Proof.
  assert (Shift : forall (c : cp) (s : text) g,
             (exists pre s' rest, s = pre ++ s' /\ match_at r s' = Some (rest, g)) ->
             exists pre s' rest, c :: s = pre ++ s' /\ match_at r s' = Some (rest, g)).
  { intros c s g (pre & s' & rest & -> & E). exists (c :: pre), s', rest. auto. }
  induction s as [|c s IH]; intros skip g H.
  - destruct skip; cbn [scan] in H; [|contradiction].
    destruct (match_at r []) as [[rest g0]|] eqn:E; cbn [hits In] in H; [|contradiction].
    destruct H as [->|[]]. exists [], [], rest. auto.
  - destruct skip; cbn [scan] in H.
    + destruct (match_at r (c :: s)) as [[rest g0]|] eqn:E.
      * cbn [hits In] in H. destruct H as [->|H].
        { exists [], (c :: s), rest. auto. }
        apply Shift.
        destruct (length (c :: s) - length rest)%nat; cbn [hits] in H; eauto.
      * cbn [hits] in H. eauto.
    + eauto.
Qed.

(** ** The shape of a match of the triplet pattern *)

Ltac invert_match :=
  match goal with
  | H : Matches (Class _) _ _ _ _ |- _ => inversion H; subst; clear H
  | H : Matches (Cat _ _) _ _ _ _ |- _ => inversion H; subst; clear H
  | H : Matches (Alt _ _) _ _ _ _ |- _ => inversion H; subst; clear H
  | H : Matches (Repeat _ _ _ _) _ _ _ _ |- _ => inversion H; subst; clear H
  | H : Matches (Group _ _) _ _ _ _ |- _ => inversion H; subst; clear H
  | H : Matches (Lookahead _) _ _ _ _ |- _ => inversion H; subst; clear H
  | H : Matches EndLine _ _ _ _ |- _ => inversion H; subst; clear H
  end.

Lemma nonempty_of_length (s : text) : (1 <= length s)%nat -> s <> [].
Proof. destruct s; simpl; [lia|discriminate]. Qed.

Lemma exactly_two (p : cp -> bool) (l : text) :
  forallb p l = true -> (2 <= length l)%nat -> within (Some 2%nat) (length l) ->
  exists a b, l = [a; b] /\ p a = true /\ p b = true.
Proof.
  intros Hp Hlo Hhi. simpl in Hhi.
  destruct l as [|a [|b [|c l]]]; simpl in *; try lia.
  apply andb_true_iff in Hp as [Pa Pb]. apply andb_true_iff in Pb as [Pb _].
  exists a, b. auto.
Qed.

Lemma layout_of_parts up dg ws1 vendor ws2 raw rest :
  forallb is_upper_AZ up = true -> (2 <= length up)%nat -> within (Some 2%nat) (length up) ->
  forallb is_decimal dg = true -> (2 <= length dg)%nat -> within (Some 2%nat) (length dg) ->
  forallb is_space ws1 = true -> (1 <= length ws1)%nat ->
  forallb not_space vendor = true -> (3 <= length vendor)%nat ->
  within (Some 40%nat) (length vendor) ->
  forallb is_space ws2 = true -> (1 <= length ws2)%nat ->
  forallb not_crlf raw = true -> (1 <= length raw)%nat ->
  at_line_end rest ->
  exists company ws1' vendor' ws2' raw',
    up ++ dg ++ ws1 ++ vendor ++ ws2 ++ raw ++ rest =
      company ++ ws1' ++ vendor' ++ ws2' ++ raw' ++ rest /\
    [("name"%string, firstn (length (raw ++ rest) - length rest) (raw ++ rest));
     ("vendor"%string,
      firstn (length (vendor ++ ws2 ++ raw ++ rest) - length (ws2 ++ raw ++ rest))
             (vendor ++ ws2 ++ raw ++ rest));
     ("company"%string,
      firstn (length (up ++ dg ++ ws1 ++ vendor ++ ws2 ++ raw ++ rest) -
              length (ws1 ++ vendor ++ ws2 ++ raw ++ rest))
             (up ++ dg ++ ws1 ++ vendor ++ ws2 ++ raw ++ rest))] =
    [("name"%string, raw'); ("vendor"%string, vendor'); ("company"%string, company)] /\
    triplet_layout company ws1' vendor' ws2' raw' rest.
Proof.
  intros U1 U2 U3 D1 D2 D3 W1 W1' V1 V2 V3 W2 W2' R1 R2 E.
  exists (up ++ dg), ws1, vendor, ws2, raw.
  rewrite !firstn_length_diff.
  replace (up ++ dg ++ ws1 ++ vendor ++ ws2 ++ raw ++ rest)
    with ((up ++ dg) ++ ws1 ++ vendor ++ ws2 ++ raw ++ rest)
    by (now rewrite <- app_assoc).
  rewrite firstn_length_diff.
  split; [reflexivity|]. split; [reflexivity|].
  destruct (exactly_two _ _ U1 U2 U3) as (a & b & -> & Pa & Pb).
  destruct (exactly_two _ _ D1 D2 D3) as (d & e & -> & Pd & Pe).
  constructor; auto using nonempty_of_length.
  exists a, b, d, e. auto.
Qed.

Lemma triplet_match_shape s rest g :
  match_at _TRIPLET_REGEX s = Some (rest, g) ->
  exists company ws1 vendor ws2 raw,
    s = company ++ ws1 ++ vendor ++ ws2 ++ raw ++ rest /\
    g = [("name"%string, raw); ("vendor"%string, vendor); ("company"%string, company)] /\
    triplet_layout company ws1 vendor ws2 raw rest.
Proof.
  intros H. apply match_at_sound in H.
  unfold _TRIPLET_REGEX, exactly, plus, opt in H.
  repeat invert_match; apply layout_of_parts; auto; unfold at_line_end.
  - left. reflexivity.
  - right. left. eauto.
  - match goal with H : is_char LF ?c = true |- _ =>
      apply N.eqb_eq in H; subst c end.
    match goal with H : within (Some 1%nat) (length ?l) |- _ =>
      destruct l as [|x [|y l']]; simpl in H; try lia end.
    + right. left. simpl. eauto.
    + right. right.
      match goal with H : forallb (is_char CR) [?x] = true |- _ =>
        simpl in H; rewrite andb_true_r in H; apply N.eqb_eq in H; subst x end.
      simpl. eauto.
Qed.

(** Every record of the extractor comes from a match at some position. *)
Lemma extract_record_origin t r :
  In r (extract_triplets_from_text t) ->
  exists pre company ws1 vendor ws2 raw rest,
    or_empty t = pre ++ company ++ ws1 ++ vendor ++ ws2 ++ raw ++ rest /\
    triplet_layout company ws1 vendor ws2 raw rest /\
    r = (strip company, strip vendor, clean_name raw).
Proof.
  unfold extract_triplets_from_text, finditer. intros H.
  apply in_map_iff in H as (g & <- & H).
  apply scan_hits in H as (pre & s' & rest & E & H).
  apply triplet_match_shape in H as (company & ws1 & vendor & ws2 & raw & -> & -> & L).
  exists pre, company, ws1, vendor, ws2, raw, rest.
  split; [exact E|]. split; [exact L|]. reflexivity.
Qed.

(** ** Stripping *)

Lemma lstrip_by_split p s :
  exists pre, s = pre ++ lstrip_by p s /\ forallb p pre = true.
Proof.
  induction s as [|c s (pre & E & Hp)]; simpl.
  - exists []. auto.
  - destruct (p c) eqn:Pc.
    + exists (c :: pre). simpl. rewrite Pc, Hp, <- E. auto.
    + exists []. auto.
Qed.

Lemma lstrip_by_head p s c t : lstrip_by p s = c :: t -> p c = false.
Proof.
  induction s as [|d s IH]; simpl; [discriminate|].
  destruct (p d) eqn:Pd; [exact IH|].
  intros E. injection E as <- _. exact Pd.
Qed.

Lemma lstrip_by_length p s : (length (lstrip_by p s) <= length s)%nat.
Proof.
  destruct (lstrip_by_split p s) as (pre & E & _).
  rewrite E at 2. rewrite length_app. lia.
Qed.

Lemma forallb_rev (p : cp -> bool) s : forallb p (rev s) = forallb p s.
Proof.
  induction s as [|c s IH]; simpl; [reflexivity|].
  rewrite forallb_app, IH. simpl. rewrite andb_true_r. apply andb_comm.
Qed.

Lemma strip_by_split p s :
  exists pre suf, s = pre ++ strip_by p s ++ suf /\
    forallb p pre = true /\ forallb p suf = true.
Proof.
  unfold strip_by, rstrip_by.
  destruct (lstrip_by_split p s) as (pre & E1 & H1).
  destruct (lstrip_by_split p (rev (lstrip_by p s))) as (rsuf & E2 & H2).
  exists pre, (rev rsuf). split; [|split; [exact H1|now rewrite forallb_rev]].
  rewrite <- rev_app_distr, <- E2, rev_involutive. exact E1.
Qed.

Lemma last_rev_cons (c : cp) u d : last (rev (c :: u)) d = c.
Proof. simpl. apply last_last. Qed.

Lemma strip_by_ends p s c t :
  strip_by p s = c :: t -> p c = false /\ p (last (c :: t) c) = false.
Proof.
  unfold strip_by, rstrip_by. intros E.
  destruct (lstrip_by p (rev (lstrip_by p s))) as [|z v] eqn:Ev; [discriminate|].
  pose proof (lstrip_by_head _ _ _ _ Ev) as Pz.
  split.
  - destruct (lstrip_by_split p (rev (lstrip_by p s))) as (rsuf & E2 & _).
    rewrite Ev in E2. apply (f_equal (@rev cp)) in E2.
    rewrite rev_involutive, rev_app_distr, E in E2. simpl in E2.
    eapply lstrip_by_head. exact E2.
  - rewrite <- E. rewrite last_rev_cons. exact Pz.
Qed.

Lemma strip_by_id p s :
  forallb (fun c => negb (p c)) s = true -> strip_by p s = s.
Proof.
  assert (L : forall u, forallb (fun c => negb (p c)) u = true -> lstrip_by p u = u).
  { intros [|c u]; simpl; [reflexivity|].
    intros H. apply andb_true_iff in H as [H _].
    apply negb_true_iff in H. now rewrite H. }
  intros H. unfold strip_by, rstrip_by.
  rewrite (L s H), L, rev_involutive; [reflexivity|].
  now rewrite forallb_rev.
Qed.

Lemma trimmed_of_strip_chars set s : trimmed_of set (strip_chars set s) = true.
Proof.
  unfold trimmed_of, strip_chars.
  destruct (strip_by (mem set) s) as [|c t] eqn:E; [reflexivity|].
  apply strip_by_ends in E as [H1 H2]. now rewrite H1, H2.
Qed.

(** ** Collapsing whitespace *)

Lemma rep_greedy_run p g s :
  rep_greedy p 0 None s (fun s' => Some (s', g)) = Some (lstrip_by p s, g).
Proof.
  induction s as [|c s IH]; simpl; [reflexivity|].
  destruct (p c); [now rewrite IH|reflexivity].
Qed.

Lemma match_at_spaces c s :
  match_at re_spaces (c :: s) =
  if is_space c then Some (lstrip_by is_space s, []) else None.
Proof.
  unfold match_at, re_spaces, plus. cbn [run rep_greedy may_take andb pred option_map].
  destruct (is_space c); [|reflexivity].
  now rewrite (rep_greedy_run is_space []).
Qed.

Lemma scan_skip r pre s : scan r (pre ++ s) (length pre) = scan r s 0.
Proof. induction pre as [|c pre IH]; [reflexivity|exact IH]. Qed.

Lemma collapse_cons c s :
  re_sub re_spaces [SP] (c :: s) =
  if is_space c
  then SP :: re_sub re_spaces [SP] (lstrip_by is_space s)
  else c :: re_sub re_spaces [SP] s.
Proof.
  unfold re_sub. cbn [scan]. rewrite match_at_spaces.
  destruct (is_space c); [|reflexivity].
  destruct (lstrip_by_split is_space s) as (pre & E & _).
  remember (lstrip_by is_space s) as t. subst s.
  replace (length (c :: pre ++ t) - length t)%nat with (S (length pre))
    by (change (length (c :: pre ++ t)) with (S (length (pre ++ t)));
        rewrite length_app; lia).
  rewrite scan_skip. reflexivity.
Qed.

Lemma collapse_head s :
  head_not_space s = true -> head_not_space (re_sub re_spaces [SP] s) = true.
Proof.
  destruct s as [|c s]; [reflexivity|].
  simpl. intros H. rewrite collapse_cons.
  apply negb_true_iff in H. rewrite H. simpl. now rewrite H.
Qed.

Lemma collapse_single_spaced s :
  single_spaced (re_sub re_spaces [SP] s) = true.
Proof.
  remember (length s) as n eqn:Hn. revert s Hn.
  induction n as [n IH] using lt_wf_ind. intros s Hn.
  destruct s as [|c s]; [reflexivity|].
  rewrite collapse_cons. destruct (is_space c) eqn:Sc.
  - cbn [single_spaced]. apply andb_true_iff. split.
    + apply orb_true_iff. right. apply andb_true_iff. split; [reflexivity|].
      apply (collapse_head (lstrip_by is_space s)).
      destruct (lstrip_by is_space s) as [|d t] eqn:E; [reflexivity|].
      simpl. apply lstrip_by_head in E. now rewrite E.
    + apply (IH (length (lstrip_by is_space s))); [|reflexivity].
      subst n. simpl. pose proof (lstrip_by_length is_space s). lia.
  - cbn [single_spaced]. rewrite Sc. simpl.
    apply (IH (length s)); [subst n; simpl; lia|reflexivity].
Qed.

Lemma single_spaced_suffix pre s :
  single_spaced (pre ++ s) = true -> single_spaced s = true.
Proof.
  induction pre as [|c pre IH]; simpl; [auto|].
  intros H. apply andb_true_iff in H as [_ H]. auto.
Qed.

Lemma single_spaced_prefix s suf :
  single_spaced (s ++ suf) = true -> single_spaced s = true.
Proof.
  induction s as [|c s IH]; [reflexivity|].
  cbn [app single_spaced]. intros H.
  apply andb_true_iff in H as [H1 H2].
  apply andb_true_iff. split; [|auto].
  destruct s; [|exact H1].
  apply orb_true_iff in H1 as [H1|H1]; apply orb_true_iff; [now left|right].
  apply andb_true_iff in H1 as [H1 _]. now rewrite H1.
Qed.

Lemma clean_name_spec raw :
  let name := clean_name raw in
  single_spaced name = true /\ trimmed_of separators name = true /\
  exists l r, re_sub re_spaces [SP] (strip raw) = l ++ name ++ r /\
    forallb (mem separators) l = true /\ forallb (mem separators) r = true.
Proof.
  unfold clean_name. cbv zeta.
  destruct (strip_by_split (mem separators) (re_sub re_spaces [SP] (strip raw)))
    as (l & r & E & Hl & Hr).
  fold (strip_chars separators (re_sub re_spaces [SP] (strip raw))) in E.
  split; [|split; [apply trimmed_of_strip_chars|eauto]].
  pose proof (collapse_single_spaced (strip raw)) as H.
  rewrite E in H. apply single_spaced_suffix in H.
  now apply single_spaced_prefix in H.
Qed.

(** ** The triplet extractor *)

Lemma not_space_not_crlf c : not_space c = true -> not_crlf c = true.
Proof.
  unfold not_space, not_crlf. intros H.
  destruct (c =? CR) eqn:E1; [apply N.eqb_eq in E1; subst c; discriminate H|].
  destruct (c =? LF) eqn:E2; [apply N.eqb_eq in E2; subst c; discriminate H|].
  reflexivity.
Qed.

Lemma forallb_impl (p q : cp -> bool) s :
  (forall c, p c = true -> q c = true) ->
  forallb p s = true -> forallb q s = true.
Proof.
  intros I H. rewrite forallb_forall in *. auto.
Qed.

Lemma company_not_space company :
  (exists a b d e, company = [a; b; d; e] /\
     is_upper_AZ a = true /\ is_upper_AZ b = true /\
     is_decimal d = true /\ is_decimal e = true) ->
  forallb not_space company = true.
Proof.
  intros (a & b & d & e & -> & Ha & Hb & Hd & He).
  unfold not_space. simpl.
  now rewrite (upper_not_space _ Ha), (upper_not_space _ Hb),
    (decimal_not_space _ Hd), (decimal_not_space _ He).
Qed.

(** A returned record, field by field, in the text it was read from. *)
Lemma record_fields t company vendor name :
  In (company, vendor, name) (extract_triplets_from_text t) ->
  exists pre ws1 ws2 raw rest,
    or_empty t = pre ++ company ++ ws1 ++ vendor ++ ws2 ++ raw ++ rest /\
    triplet_layout company ws1 vendor ws2 raw rest /\
    name = clean_name raw.
Proof.
  intros H.
  apply extract_record_origin in H
    as (pre & company' & ws1 & vendor' & ws2 & raw & rest & E & L & R).
  assert (Ec : strip company' = company').
  { apply strip_by_id. apply (company_not_space _ (lay_company _ _ _ _ _ _ L)). }
  assert (Ev : strip vendor' = vendor').
  { apply strip_by_id. apply (lay_vendor _ _ _ _ _ _ L). }
  rewrite Ec, Ev in R. injection R as -> -> ->.
  exists pre, ws1, ws2, raw, rest. auto.
Qed.

(** C2, as the code has it: in every record the extractor returns, the
    company code is two upper-case ASCII letters followed by two decimal
    digits (any code point of category Nd, the ASCII digits among them); the
    vendor number is a contiguous piece of the text of 3 to 40 characters
    none of which is whitespace; in the name every whitespace character is
    a single space followed by a character that is not whitespace, no '-',
    '|' or space stands at either end, and the name is the collapsed raw
    name with only such characters taken off its two ends. *)
Theorem extracted_record_invariants t company vendor name :
  In (company, vendor, name) (extract_triplets_from_text t) ->
  (exists a b d e, company = [a; b; d; e] /\
     is_upper_AZ a = true /\ is_upper_AZ b = true /\
     is_decimal d = true /\ is_decimal e = true) /\
  ((3 <= length vendor <= 40)%nat /\ forallb not_space vendor = true /\
   exists before after, or_empty t = before ++ vendor ++ after) /\
  (single_spaced name = true /\ trimmed_of separators name = true /\
   exists before ws1 ws2 raw after l r,
     or_empty t = before ++ company ++ ws1 ++ vendor ++ ws2 ++ raw ++ after /\
     re_sub re_spaces [SP] (strip raw) = l ++ name ++ r /\
     forallb (mem separators) l = true /\ forallb (mem separators) r = true).
Proof.
  intros H.
  apply record_fields in H as (pre & ws1 & ws2 & raw & rest & E & L & ->).
  split; [exact (lay_company _ _ _ _ _ _ L)|]. split.
  - destruct (lay_vendor _ _ _ _ _ _ L) as [Hlen Hns].
    split; [exact Hlen|]. split; [exact Hns|].
    exists (pre ++ company ++ ws1), (ws2 ++ raw ++ rest).
    rewrite E. now rewrite <- !app_assoc.
  - destruct (clean_name_spec raw) as (H1 & H2 & l & r & H3 & H4 & H5).
    split; [exact H1|]. split; [exact H2|].
    exists pre, ws1, ws2, raw, rest, l, r. auto.
Qed.

Lemma extracted_record_invariants_witness :
  single_spaced (py "ABC Co") = true /\ trimmed_of separators (py "ABC Co") = true.
Proof.
  destruct (extracted_record_invariants
              (Some (html_to_text (Some markup_two_records)))
              (py "SG12") (py "999AAA") (py "ABC Co")) as (_ & _ & H1 & H2 & _).
  - vm_compute. left. reflexivity.
  - split; [exact H1|exact H2].
Defined.

(** C2 as stated fails: the company code of the record read from
    [text_arabic_indic] ends in two digits that are not ASCII digits. *)
Lemma company_code_not_ascii :
  extract_triplets_from_text (Some text_arabic_indic) =
    [([83; 71; 1635; 1636], py "1234", py "Foo")] /\
  ascii_company_code [83; 71; 1635; 1636] = false.
Proof. split; vm_compute; reflexivity. Qed.

(** C3, as the code has it: in every record the extractor returns, the
    company code, the vendor number and the raw name contain no line
    break; the raw name is not empty and runs up to the end of its line
    (the end of the text, a line feed, or a carriage return and a line
    feed); the name of the record is the cleaned raw name.  The two runs
    that separate the fields are whitespace of any kind. *)
Theorem record_name_within_line t company vendor name :
  In (company, vendor, name) (extract_triplets_from_text t) ->
  exists before ws1 ws2 raw after,
    or_empty t = before ++ company ++ ws1 ++ vendor ++ ws2 ++ raw ++ after /\
    (ws1 <> [] /\ forallb is_space ws1 = true) /\
    (ws2 <> [] /\ forallb is_space ws2 = true) /\
    forallb not_crlf company = true /\
    forallb not_crlf vendor = true /\
    (raw <> [] /\ forallb not_crlf raw = true) /\
    at_line_end after /\
    name = clean_name raw.
Proof.
  intros H.
  apply record_fields in H as (pre & ws1 & ws2 & raw & rest & E & L & ->).
  exists pre, ws1, ws2, raw, rest.
  split; [exact E|].
  split; [exact (lay_ws1 _ _ _ _ _ _ L)|].
  split; [exact (lay_ws2 _ _ _ _ _ _ L)|].
  split.
  { apply (forallb_impl not_space); [apply not_space_not_crlf|].
    apply (company_not_space _ (lay_company _ _ _ _ _ _ L)). }
  split.
  { apply (forallb_impl not_space); [apply not_space_not_crlf|].
    apply (lay_vendor _ _ _ _ _ _ L). }
  split; [exact (lay_raw _ _ _ _ _ _ L)|].
  split; [exact (lay_rest _ _ _ _ _ _ L)|reflexivity].
Qed.

Lemma record_name_within_line_witness :
  exists before ws1 ws2 raw after,
    text_three_lines =
      before ++ py "SG12" ++ ws1 ++ py "999AAA" ++ ws2 ++ raw ++ after /\
    at_line_end after /\ py "ABC Co" = clean_name raw.
Proof.
  destruct (record_name_within_line (Some text_three_lines)
              (py "SG12") (py "999AAA") (py "ABC Co"))
    as (before & ws1 & ws2 & raw & after & E & _ & _ & _ & _ & _ & A & N).
  - vm_compute. left. reflexivity.
  - exists before, ws1, ws2, raw, after. auto.
Defined.

(** C3 as stated fails: the record read from [text_three_lines] has its
    three fields on three lines, the fields being separated by line feeds,
    and no line of that text holds a record. *)
Lemma record_spans_lines :
  extract_triplets_from_text (Some text_three_lines) =
    [(py "SG12", py "999AAA", py "ABC Co")] /\
  lines text_three_lines = [py "SG12"; py "999AAA"; py "ABC Co"] /\
  flat_map (fun l => extract_triplets_from_text (Some l)) (lines text_three_lines) = [].
Proof. repeat split; vm_compute; reflexivity. Qed.

(** C4, as the code has it: on the markup of the specification the
    normalizer gives the first record line, two line feeds (one for the
    closing paragraph tag, one for the line-break tag), and the second
    record line; the extractor reads exactly two records from that. *)
Theorem markup_sample_normalized :
  html_to_text (Some markup_two_records) =
    py "SG12 999AAA ABC Co" ++ [LF; LF] ++ py "SG13 1000 XYZ Inc" /\
  extract_triplets_from_text (Some (html_to_text (Some markup_two_records))) =
    [ (py "SG12", py "999AAA", py "ABC Co");
      (py "SG13", py "1000", py "XYZ Inc") ].
Proof. split; vm_compute; reflexivity. Qed.

(** C4 as stated fails: the normalized text is not the two record lines
    with a single line feed between them. *)
Lemma markup_sample_not_single_newline :
  html_to_text (Some markup_two_records) <>
    py "SG12 999AAA ABC Co" ++ [LF] ++ py "SG13 1000 XYZ Inc".
Proof. vm_compute. discriminate. Qed.

(** C6: from the two-line sample text the extractor returns exactly the
    SPEEDYLINK record and then the ACME record. *)
Theorem two_records_sample :
  extract_triplets_from_text (Some text_two_records) =
    [ (py "SG77", py "1000338436", py "SPEEDYLINK LOGISTICS SDN BHD");
      (py "SG80", py "1000445566", py "ACME TRADING PTE LTD") ].
Proof. vm_compute. reflexivity. Qed.

(** ** The subject classifier *)

Section ClassifierFacts.

Variable lower : text -> text.
Hypothesis lower_ascii : lower_on_ascii lower.

Ltac lower_ascii_literals :=
  repeat match goal with
         | |- context [lower ?x] =>
             rewrite (lower_ascii x) by (vm_compute; reflexivity)
         end.

Lemma forwarded_subject_matches :
  subject_matches lower (Some subject_forwarded) default_keywords default_phrases 1 = true.
Proof.
  unfold subject_matches, occurs_in, default_keywords, default_phrases.
  cbn [existsb filter or_empty]. lower_ascii_literals.
  vm_compute. reflexivity.
Qed.

Lemma newsletter_subject_does_not_match :
  subject_matches lower (Some subject_newsletter) default_keywords default_phrases 1 = false.
Proof.
  unfold subject_matches, occurs_in, default_keywords, default_phrases.
  cbn [existsb filter or_empty]. lower_ascii_literals.
  vm_compute. reflexivity.
Qed.

Lemma empty_subject_default t :
  subject_matches lower (Some []) default_keywords default_phrases t = (0 >=? t)%Z.
Proof.
  unfold subject_matches, occurs_in, default_keywords, default_phrases.
  cbn [existsb filter or_empty]. lower_ascii_literals.
  reflexivity.
Qed.

End ClassifierFacts.

Lemma subject_matches_phrase lower subject kws phs t :
  (exists ph, In ph phs /\ contains (lower ph) (lower (or_empty subject)) = true) ->
  subject_matches lower subject kws phs t = true.
Proof.
  intros (ph & Hin & Hc). unfold subject_matches.
  assert (E : existsb (occurs_in lower (lower (or_empty subject))) phs = true).
  { apply existsb_exists. exists ph. auto. }
  now rewrite E.
Qed.

Lemma subject_matches_keywords lower subject kws phs t :
  ~ (exists ph, In ph phs /\ contains (lower ph) (lower (or_empty subject)) = true) ->
  (subject_matches lower subject kws phs t = true <->
   (t <= Z.of_nat (length (filter (occurs_in lower (lower (or_empty subject))) kws)))%Z).
Proof.
  intros N. unfold subject_matches.
  destruct (existsb (occurs_in lower (lower (or_empty subject))) phs) eqn:E.
  - exfalso. apply N. apply existsb_exists in E as (ph & Hin & Hc). eauto.
  - rewrite Z.geb_le. reflexivity.
Qed.

Lemma subject_matches_as_specified lower subject kws phs t :
  NoDup kws ->
  subject_matches lower subject kws phs t =
  classifier_as_specified lower subject kws phs t.
Proof.
  intros ND. unfold subject_matches, classifier_as_specified.
  fold (occurs_in lower (lower (or_empty subject))).
  destruct (existsb (occurs_in lower (lower (or_empty subject))) phs); [reflexivity|].
  rewrite nodup_fixed_point by (apply NoDup_filter; exact ND).
  rewrite Z.geb_leb. reflexivity.
Qed.

(** What the classifier computes: a phrase that occurs in the lower-cased
    subject gives true whatever the threshold; otherwise the result is true
    exactly when the threshold is at most the number of entries of the
    keyword list that occur in the lower-cased subject; for a keyword list
    without repeated entries that is the number of distinct keywords, and
    the classifier is the one the specification words.  With the default
    configuration the forwarded subject is classified true and the
    newsletter subject false. *)
Lemma subject_classifier_decision lower subject kws phs t :
  lower_on_ascii lower ->
  let s := lower (or_empty subject) in
  ((exists ph, In ph phs /\ contains (lower ph) s = true) ->
   subject_matches lower subject kws phs t = true) /\
  (~ (exists ph, In ph phs /\ contains (lower ph) s = true) ->
   (subject_matches lower subject kws phs t = true <->
    (t <= Z.of_nat (length (filter (fun kw => contains (lower kw) s) kws)))%Z)) /\
  (NoDup kws ->
   subject_matches lower subject kws phs t =
   classifier_as_specified lower subject kws phs t) /\
  subject_matches lower (Some subject_forwarded) default_keywords default_phrases 1 = true /\
  subject_matches lower (Some subject_newsletter) default_keywords default_phrases 1 = false.
Proof.
  intros L s. repeat split.
  - apply subject_matches_phrase.
  - apply subject_matches_keywords. assumption.
  - apply subject_matches_keywords. assumption.
  - apply subject_matches_as_specified.
  - apply forwarded_subject_matches. exact L.
  - apply newsletter_subject_does_not_match. exact L.
Qed.

(** C1: the count is not of distinct keywords.  With the keyword written
    twice in the list and no phrase, the subject "esker" reaches the
    threshold 2 in the code, while one distinct keyword occurs in it and
    the classifier of the specification answers false. *)
Theorem repeated_keyword_counts_twice :
  subject_matches ascii_lower (Some kw_esker) [kw_esker; kw_esker] [] 2 = true /\
  length (nodup text_eq_dec
            (filter (fun kw => contains (ascii_lower kw) (ascii_lower kw_esker))
                    [kw_esker; kw_esker])) = 1%nat /\
  classifier_as_specified ascii_lower (Some kw_esker) [kw_esker; kw_esker] [] 2 = false.
Proof. repeat split; vm_compute; reflexivity. Qed.

(** C7: a missing subject is classified as the empty subject is, for every
    configuration; with the default keywords and phrases and a threshold
    that is not negative, a missing or empty subject is classified true
    exactly when the threshold is 0. *)
Theorem null_subject_as_empty lower kws phs t :
  lower_on_ascii lower ->
  subject_matches lower None kws phs t = subject_matches lower (Some []) kws phs t /\
  ((0 <= t)%Z ->
   (subject_matches lower None default_keywords default_phrases t = true <-> t = 0%Z) /\
   (subject_matches lower (Some []) default_keywords default_phrases t = true <-> t = 0%Z)).
Proof.
  intros L. split; [reflexivity|]. intros Ht.
  change (subject_matches lower None default_keywords default_phrases t)
    with (subject_matches lower (Some []) default_keywords default_phrases t).
  rewrite (empty_subject_default lower L), Z.geb_le. lia.
Qed.

Lemma null_subject_as_empty_witness :
  subject_matches ascii_lower None default_keywords default_phrases 0 = true <-> 0%Z = 0%Z.
Proof.
  destruct (null_subject_as_empty ascii_lower default_keywords default_phrases 0) as [_ H].
  - intros s _. reflexivity.
  - apply H. lia.
Defined.

(** ** The result assembler *)

Lemma seen_in_true seen x : seen_in seen x = true <-> In x seen.
Proof.
  unfold seen_in. destruct (in_dec triplet_eq_dec x seen); split; auto; discriminate.
Qed.

Lemma seen_in_ext s1 s2 x :
  (forall y, In y s1 <-> In y s2) -> seen_in s1 x = seen_in s2 x.
Proof.
  intros E. destruct (seen_in s2 x) eqn:H2.
  - apply seen_in_true. apply E. now apply seen_in_true.
  - destruct (seen_in s1 x) eqn:H1; [|reflexivity].
    apply seen_in_true, E, seen_in_true in H1. congruence.
Qed.

Lemma kept_from_cons seen x l :
  kept_from seen (x :: l) =
  if seen_in seen x then kept_from (x :: seen) l else x :: kept_from (x :: seen) l.
Proof. unfold kept_from. simpl. destruct (seen_in seen x); reflexivity. Qed.

Lemma kept_from_In seen l y :
  In y (kept_from seen l) <-> In y l /\ ~ In y seen.
Proof.
  revert seen. induction l as [|x l IH]; intros seen.
  - unfold kept_from. simpl. tauto.
  - rewrite kept_from_cons. destruct (seen_in seen x) eqn:S.
    + apply seen_in_true in S. rewrite IH. simpl.
      split; [tauto|]. intros [[->|H] N]; [contradiction|].
      split; [exact H|]. intros [->|H']; contradiction.
    + assert (N : ~ In x seen) by (rewrite <- seen_in_true; congruence).
      simpl. rewrite IH. simpl.
      destruct (triplet_eq_dec x y) as [->|D]; intuition congruence.
Qed.

Lemma kept_from_NoDup seen l : NoDup (kept_from seen l).
Proof.
  revert seen. induction l as [|x l IH]; intros seen.
  - constructor.
  - rewrite kept_from_cons. destruct (seen_in seen x); [apply IH|].
    constructor; [|apply IH].
    rewrite kept_from_In. simpl. tauto.
Qed.

Lemma kept_from_ext s1 s2 l :
  (forall y, In y s1 <-> In y s2) -> kept_from s1 l = kept_from s2 l.
Proof.
  revert s1 s2. induction l as [|x l IH]; intros s1 s2 E; [reflexivity|].
  rewrite !kept_from_cons, (seen_in_ext s1 s2 x E).
  rewrite (IH (x :: s1) (x :: s2)); [reflexivity|].
  intros y. simpl. rewrite E. tauto.
Qed.

Lemma kept_from_fixed seen l :
  NoDup l -> (forall y, In y l -> ~ In y seen) -> kept_from seen l = l.
Proof.
  revert seen. induction l as [|x l IH]; intros seen ND F; [reflexivity|].
  rewrite kept_from_cons. inversion ND as [|x' l' Nx ND']; subst.
  destruct (seen_in seen x) eqn:S.
  - apply seen_in_true in S. exfalso. apply (F x); simpl; auto.
  - f_equal. apply IH; [exact ND'|].
    intros y Hy [->|Hs]; [contradiction|]. apply (F y); simpl; auto.
Qed.

Lemma combine_seq_shift (l : list triplet) :
  combine (seq 1 (length l)) l =
  List.map (fun ix => (S (fst ix), snd ix)) (combine (seq 0 (length l)) l).
Proof.
  rewrite <- seq_shift. generalize (seq 0 (length l)) as ns.
  induction l as [|x l IH]; intros [|n ns]; simpl; try reflexivity.
  now rewrite IH.
Qed.

Lemma kept_from_positions seen l :
  kept_from seen l =
  List.map snd
    (filter (fun ix => negb (seen_in (seen ++ firstn (fst ix) l) (snd ix)))
            (combine (seq 0 (length l)) l)).
Proof.
  revert seen. induction l as [|x l IH]; intros seen; [reflexivity|].
  rewrite kept_from_cons.
  cbn [length seq combine filter fst snd firstn].
  rewrite app_nil_r, combine_seq_shift, filter_map_swap.
  cbn [fst snd firstn].
  assert (T : kept_from (x :: seen) l =
              List.map snd
                (List.map (fun ix : nat * triplet => (S (fst ix), snd ix))
                   (filter (fun a => negb (seen_in (seen ++ x :: firstn (fst a) l) (snd a)))
                           (combine (seq 0 (length l)) l)))).
  { rewrite map_map. cbn [snd].
    rewrite (kept_from_ext (x :: seen) (seen ++ [x]))
      by (intros y; rewrite in_app_iff; simpl; tauto).
    rewrite IH. apply f_equal. apply filter_ext.
    intros ix. now rewrite <- app_assoc. }
  destruct (seen_in seen x); cbn [negb List.map snd]; rewrite T; reflexivity.
Qed.

Lemma build_dataframe_rows l :
  build_dataframe l =
  {| columns := result_columns;
     index := seq 0 (length (kept_from [] l));
     rows := kept_from [] l |}.
Proof.
  destruct l as [|x l]; reflexivity.
Qed.

(** C5: the assembled frame has the three columns; its rows are the rows
    of the input whose position holds the first occurrence of the triplet,
    in input order; no row is repeated, every triplet of the input is still
    there, and the rows are numbered from 0; the empty input gives the
    three columns and no row. *)
Theorem result_assembler_keeps_first l :
  let df := build_dataframe l in
  columns df = ["company_code"; "vendor_number"; "name"]%string /\
  rows df = first_occurrences l /\
  NoDup (rows df) /\
  (forall x, In x (rows df) <-> In x l) /\
  index df = seq 0 (length (rows df)) /\
  build_dataframe [] =
    {| columns := ["company_code"; "vendor_number"; "name"]%string;
       index := []; rows := [] |}.
Proof.
  cbv zeta. rewrite build_dataframe_rows. cbn [columns rows index].
  split; [reflexivity|]. split; [apply (kept_from_positions [] l)|].
  split; [apply kept_from_NoDup|].
  split; [|split; reflexivity].
  intros x. rewrite kept_from_In. simpl. tauto.
Qed.

(** C8: assembling the rows of an assembled frame gives that frame
    again. *)
Theorem result_assembler_idempotent l :
  build_dataframe (rows (build_dataframe l)) = build_dataframe l.
Proof.
  rewrite !build_dataframe_rows. cbn [rows].
  rewrite (kept_from_fixed [] (kept_from [] l)); [reflexivity| |].
  - apply kept_from_NoDup.
  - intros y _ [].
Qed.

(** ** The module state *)

Section PipelineFacts.

Variable lower : text -> text.

Lemma subject_matches_call_intact st subject n :
  defaults_intact st ->
  subject_matches_call lower subject n st =
  (subject_matches lower subject default_keywords default_phrases n, st).
Proof.
  intros [D [others S]]. unfold subject_matches_call, items.
  rewrite D, S. reflexivity.
Qed.

Lemma find_matching_emails_inbox_intact st collection cutoff_ts n :
  defaults_intact st ->
  find_matching_emails_inbox lower collection cutoff_ts n st =
  (filter (yielded lower default_keywords default_phrases cutoff_ts n) collection, st).
Proof.
  intros I. induction collection as [|msg collection IH]; [reflexivity|].
  cbn [find_matching_emails_inbox filter]. unfold yielded at 1.
  destruct (match ReceivedTime msg with
            | Some ts => (ts <? cutoff_ts)%Z
            | None => false
            end).
  - exact IH.
  - unfold bind. rewrite (subject_matches_call_intact st _ n I), IH.
    cbn [negb andb ret].
    destruct (subject_matches lower (Some (or_empty (Subject msg)))
                default_keywords default_phrases n); reflexivity.
Qed.

Lemma rebind_defaults_intact st kws phs :
  defaults_intact st -> defaults_intact (snd (rebind_defaults kws phs st)).
Proof.
  intros [D [others S]]. split; [exact D|].
  exists (others ++ [kws] ++ [phs]). cbn. rewrite S. cbn.
  now rewrite <- app_assoc.
Qed.

Lemma rebind_defaults_names st kws phs :
  let st' := snd (rebind_defaults kws phs st) in
  items st' (DEFAULT_SUBJECT_KEYWORDS st') = kws /\
  items st' (DEFAULT_SUBJECT_PHRASES st') = phs.
Proof.
  cbn. unfold items. cbn. split.
  - rewrite <- app_assoc. cbn [app]. apply nth_middle.
  - apply nth_middle.
Qed.

Lemma extract_triplets_from_text_call_intact st t :
  TRIPLET_REGEX_global st = _TRIPLET_REGEX ->
  extract_triplets_from_text_call t st = (extract_triplets_from_text t, st).
Proof.
  intros P. unfold extract_triplets_from_text_call. rewrite P. reflexivity.
Qed.

Lemma extract_rows_from_email_call_intact st msg :
  TRIPLET_REGEX_global st = _TRIPLET_REGEX ->
  extract_rows_from_email_call msg st = (extract_rows_from_email msg, st).
Proof.
  intros P. unfold extract_rows_from_email_call, extract_rows_from_email.
  now apply extract_triplets_from_text_call_intact.
Qed.

Lemma rows_of_messages_intact st msgs :
  TRIPLET_REGEX_global st = _TRIPLET_REGEX ->
  rows_of_messages msgs st = (flat_map extract_rows_from_email msgs, st).
Proof.
  intros P. induction msgs as [|msg msgs IH]; [reflexivity|].
  cbn [rows_of_messages flat_map]. unfold bind.
  rewrite (extract_rows_from_email_call_intact st msg P), IH. reflexivity.
Qed.

Lemma rebind_defaults_module_intact st kws phs :
  module_intact st -> module_intact (snd (rebind_defaults kws phs st)).
Proof.
  intros [D P]. split; [now apply rebind_defaults_intact|exact P].
Qed.

Lemma get_esker_vendor_updates_df_intact st inbox now minutes_back n kws phs :
  module_intact st ->
  get_esker_vendor_updates_df lower inbox now minutes_back n kws phs st =
  (build_dataframe
     (flat_map extract_rows_from_email
        (filter (yielded lower default_keywords default_phrases
                   (now - minutes_back * 60000000)%Z n) inbox)),
   snd (rebind_defaults kws phs st)).
Proof.
  intros I. unfold get_esker_vendor_updates_df.
  unfold bind at 1. destruct (rebind_defaults kws phs st) as [u st1] eqn:E.
  assert (I1 : module_intact st1).
  { replace st1 with (snd (rebind_defaults kws phs st)) by now rewrite E.
    now apply rebind_defaults_module_intact. }
  destruct I1 as [D1 P1].
  unfold bind at 1. rewrite (find_matching_emails_inbox_intact st1 _ _ _ D1).
  unfold bind. rewrite (rows_of_messages_intact st1 _ P1).
  reflexivity.
Qed.

Lemma reachable_intact st : reachable lower st -> module_intact st.
Proof.
  induction 1 as [|st inbox now minutes_back n kws phs R IH].
  - split; [|reflexivity]. split; [reflexivity|]. exists []. reflexivity.
  - rewrite (get_esker_vendor_updates_df_intact _ _ _ _ _ _ _ IH).
    now apply rebind_defaults_module_intact.
Qed.

End PipelineFacts.

(** C10: in every state the module can be in, the entry point returns the
    same frame for any two keyword and phrase configurations, the other
    arguments being the same.  After its two assignments the global names
    refer to the new lists, yet a call of [subject_matches] without
    keywords and phrases classifies every subject with the two lists of the
    loaded module, and so does the loop over the messages. *)
Theorem subject_configuration_has_no_effect lower st inbox now minutes_back n
    kws1 phs1 kws2 phs2 :
  reachable lower st ->
  fst (get_esker_vendor_updates_df lower inbox now minutes_back n kws1 phs1 st) =
  fst (get_esker_vendor_updates_df lower inbox now minutes_back n kws2 phs2 st) /\
  (let st1 := snd (rebind_defaults kws1 phs1 st) in
   items st1 (DEFAULT_SUBJECT_KEYWORDS st1) = kws1 /\
   items st1 (DEFAULT_SUBJECT_PHRASES st1) = phs1 /\
   (forall subject m,
      fst (subject_matches_call lower subject m st1) =
      subject_matches lower subject default_keywords default_phrases m) /\
   (forall cutoff_ts,
      fst (find_matching_emails_inbox lower inbox cutoff_ts n st1) =
      filter (yielded lower default_keywords default_phrases cutoff_ts n) inbox)).
Proof.
  intros R. apply reachable_intact in R. split.
  - now rewrite !get_esker_vendor_updates_df_intact.
  - cbv zeta.
    pose proof (rebind_defaults_intact st kws1 phs1 (proj1 R)) as I1.
    destruct (rebind_defaults_names st kws1 phs1) as [E1 E2].
    split; [exact E1|]. split; [exact E2|]. split.
    + intros subject m. now rewrite subject_matches_call_intact.
    + intros cutoff_ts. now rewrite find_matching_emails_inbox_intact.
Qed.

Lemma subject_configuration_has_no_effect_witness :
  fst (get_esker_vendor_updates_df ascii_lower sample_inbox 1000 0 1
         [py "invoice"] [] state_after_custom_run) =
  fst (get_esker_vendor_updates_df ascii_lower sample_inbox 1000 0 1
         default_keywords default_phrases state_after_custom_run) /\
  rows (fst (get_esker_vendor_updates_df ascii_lower sample_inbox 1000 0 1
               [py "invoice"] [] state_after_custom_run)) =
    [(py "SG77", py "1000338436", py "SPEEDYLINK LOGISTICS SDN BHD")] /\
  fst (subject_matches_call ascii_lower (Subject message_invoice_recent) 1
         (snd (rebind_defaults [py "invoice"] [] state_after_custom_run))) = false /\
  subject_matches ascii_lower (Subject message_invoice_recent) [py "invoice"] [] 1 = true.
Proof.
  destruct (subject_configuration_has_no_effect ascii_lower state_after_custom_run
              sample_inbox 1000 0 1 [py "invoice"] [] default_keywords
              default_phrases) as [H (_ & _ & C & _)].
  - unfold state_after_custom_run. apply reach_run. apply reach_loaded.
  - split; [exact H|]. split; [vm_compute; reflexivity|].
    split; [|vm_compute; reflexivity].
    rewrite C. vm_compute. reflexivity.
Defined.

(** C9: the extractor is deterministic over the life of the module.  A
    call looks the pattern up under its global name; in every state the
    module can be in (loaded, or after any runs of the entry point with any
    configuration) that name is still bound to the compiled pattern, so
    calls on the same text made in any two such states, and two calls one
    after the other, return the same sequence, which is the one the
    function of the text gives; a call leaves the state as it was. *)
Theorem extraction_deterministic lower t st1 st2 :
  reachable lower st1 -> reachable lower st2 ->
  fst (extract_triplets_from_text_call t st1) =
  fst (extract_triplets_from_text_call t st2) /\
  (let (r1, st1') := extract_triplets_from_text_call t st1 in
   let (r2, st1'') := extract_triplets_from_text_call t st1' in
   r1 = r2 /\ st1' = st1 /\ st1'' = st1) /\
  fst (extract_triplets_from_text_call t st1) = extract_triplets_from_text t.
Proof.
  intros R1 R2.
  apply reachable_intact in R1 as [_ P1]. apply reachable_intact in R2 as [_ P2].
  rewrite (extract_triplets_from_text_call_intact st1 t P1).
  rewrite (extract_triplets_from_text_call_intact st2 t P2).
  rewrite (extract_triplets_from_text_call_intact st1 t P1).
  cbn [fst]. auto.
Qed.

Lemma extraction_deterministic_witness :
  fst (extract_triplets_from_text_call (Some text_two_records) module_loaded) =
  fst (extract_triplets_from_text_call (Some text_two_records) state_after_custom_run) /\
  fst (extract_triplets_from_text_call (Some text_two_records) module_loaded) =
    [ (py "SG77", py "1000338436", py "SPEEDYLINK LOGISTICS SDN BHD");
      (py "SG80", py "1000445566", py "ACME TRADING PTE LTD") ].
Proof.
  destruct (extraction_deterministic ascii_lower (Some text_two_records)
              module_loaded state_after_custom_run) as (H & _ & E).
  - apply reach_loaded.
  - unfold state_after_custom_run. apply reach_run. apply reach_loaded.
  - split; [exact H|]. rewrite E. vm_compute. reflexivity.
Defined.

(** * Further properties of the pipeline *)

(** ** The subject classifier: thresholds, configuration, letter case *)

(** A threshold of 0 or less lets every subject through, whatever the
    keywords and phrases. *)
Theorem nonpositive_threshold_matches_all lower subject kws phs t :
  (t <= 0)%Z -> subject_matches lower subject kws phs t = true.
Proof.
  intros H. unfold subject_matches.
  destruct (existsb _ phs); [reflexivity|].
  apply Z.geb_le. lia.
Qed.

Lemma nonpositive_threshold_matches_all_witness :
  subject_matches ascii_lower (Some subject_newsletter) default_keywords default_phrases 0 = true.
Proof. apply nonpositive_threshold_matches_all. lia. Defined.

(** Lowering the threshold never loses a match. *)
Theorem lower_threshold_keeps_match lower subject kws phs t t' :
  (t' <= t)%Z ->
  subject_matches lower subject kws phs t = true ->
  subject_matches lower subject kws phs t' = true.
Proof.
  unfold subject_matches. intros Le.
  destruct (existsb _ phs); [reflexivity|].
  rewrite !Z.geb_le. lia.
Qed.

Lemma lower_threshold_keeps_match_witness :
  subject_matches ascii_lower (Some (py "Vendor update")) default_keywords [] 1 = true.
Proof.
  apply (lower_threshold_keeps_match ascii_lower _ _ _ 2 1); [lia|].
  vm_compute. reflexivity.
Defined.

(** Keywords and phrases added to a configuration never lose a match. *)
Theorem more_configuration_keeps_match lower subject kws kws' phs phs' t :
  subject_matches lower subject kws phs t = true ->
  subject_matches lower subject (kws ++ kws') (phs ++ phs') t = true.
Proof.
  unfold subject_matches. rewrite existsb_app, filter_app, length_app.
  destruct (existsb _ phs); [reflexivity|]. simpl.
  destruct (existsb _ phs'); [reflexivity|].
  rewrite !Z.geb_le. lia.
Qed.

Lemma more_configuration_keeps_match_witness :
  subject_matches ascii_lower (Some (py "Vendor update"))
    ([kw_vendor] ++ [kw_update]) ([] ++ [ph_esker_vendor]) 1 = true.
Proof.
  apply more_configuration_keeps_match. vm_compute. reflexivity.
Defined.

(** With a threshold above the number of keywords, only a phrase can make
    a subject match. *)
Theorem threshold_above_keywords_needs_phrase lower subject kws phs t :
  (Z.of_nat (length kws) < t)%Z ->
  subject_matches lower subject kws phs t =
  existsb (fun ph => contains (lower ph) (lower (or_empty subject))) phs.
Proof.
  intros H. unfold subject_matches.
  fold (occurs_in lower (lower (or_empty subject))).
  destruct (existsb _ phs); [reflexivity|].
  pose proof (filter_length_le (occurs_in lower (lower (or_empty subject))) kws).
  destruct (Z.geb_spec (Z.of_nat (length (filter (occurs_in lower (lower (or_empty subject))) kws))) t);
    [lia|reflexivity].
Qed.

Lemma threshold_above_keywords_needs_phrase_witness :
  subject_matches ascii_lower (Some (py "esker vendor update news")) default_keywords [] 4 =
  existsb (fun ph => contains (ascii_lower ph)
                       (ascii_lower (or_empty (Some (py "esker vendor update news"))))) [].
Proof. apply threshold_above_keywords_needs_phrase. simpl. lia. Defined.

Lemma occurs_in_up_to_case lower s a b :
  lower_on_ascii lower -> same_up_to_case a b ->
  occurs_in lower s a = occurs_in lower s b.
Proof.
  intros L (Ha & Hb & E). unfold occurs_in.
  now rewrite (L a Ha), (L b Hb), E.
Qed.

Lemma existsb_up_to_case lower s l1 l2 :
  lower_on_ascii lower -> Forall2 same_up_to_case l1 l2 ->
  existsb (occurs_in lower s) l1 = existsb (occurs_in lower s) l2.
Proof.
  intros L F. induction F as [|a b l1 l2 E F IH]; [reflexivity|].
  simpl. now rewrite IH, (occurs_in_up_to_case lower s a b L E).
Qed.

Lemma filter_length_up_to_case lower s l1 l2 :
  lower_on_ascii lower -> Forall2 same_up_to_case l1 l2 ->
  length (filter (occurs_in lower s) l1) = length (filter (occurs_in lower s) l2).
Proof.
  intros L F. induction F as [|a b l1 l2 E F IH]; [reflexivity|].
  simpl. rewrite (occurs_in_up_to_case lower s a b L E).
  destruct (occurs_in lower s b); simpl; now rewrite IH.
Qed.

(** The case of ASCII letters plays no part: subjects, keywords and
    phrases that differ only in it are classified alike. *)
Theorem classification_ignores_ascii_case lower s1 s2 kws1 kws2 phs1 phs2 t :
  lower_on_ascii lower ->
  same_up_to_case s1 s2 ->
  Forall2 same_up_to_case kws1 kws2 ->
  Forall2 same_up_to_case phs1 phs2 ->
  subject_matches lower (Some s1) kws1 phs1 t =
  subject_matches lower (Some s2) kws2 phs2 t.
Proof.
  intros L (H1 & H2 & E) Fk Fp. unfold subject_matches. cbn [or_empty].
  rewrite (L s1 H1), (L s2 H2), E.
  rewrite (existsb_up_to_case lower _ phs1 phs2 L Fp).
  now rewrite (filter_length_up_to_case lower _ kws1 kws2 L Fk).
Qed.

Lemma classification_ignores_ascii_case_witness :
  subject_matches ascii_lower (Some (py "ESKER VENDOR UPDATE")) [py "Vendor"] [] 1 =
  subject_matches ascii_lower (Some (py "esker vendor update")) [py "vendor"] [] 1.
Proof.
  apply classification_ignores_ascii_case.
  - intros s _. reflexivity.
  - repeat split; vm_compute; reflexivity.
  - repeat constructor; vm_compute; reflexivity.
  - constructor.
Defined.

(** ** The result assembler: rows without repetition, batches *)

(** Rows that hold no repetition come back as they were given, numbered
    from 0. *)
Theorem distinct_rows_unchanged l :
  NoDup l ->
  build_dataframe l =
  {| columns := result_columns; index := seq 0 (length l); rows := l |}.
Proof.
  intros ND. rewrite build_dataframe_rows.
  rewrite (kept_from_fixed [] l ND); [reflexivity|].
  intros y _ [].
Qed.

Lemma distinct_rows_unchanged_witness :
  rows (build_dataframe [(py "SG12", py "999AAA", py "ABC Co");
                         (py "SG13", py "1000", py "XYZ Inc")]) =
  [(py "SG12", py "999AAA", py "ABC Co"); (py "SG13", py "1000", py "XYZ Inc")].
Proof.
  rewrite distinct_rows_unchanged; [reflexivity|].
  repeat constructor; simpl; intuition discriminate.
Defined.

Lemma kept_from_app seen l1 l2 :
  kept_from seen (l1 ++ l2) = kept_from seen l1 ++ kept_from (rev l1 ++ seen) l2.
Proof.
  revert seen. induction l1 as [|x l1 IH]; intros seen; [reflexivity|].
  cbn [app]. rewrite !kept_from_cons, IH.
  rewrite (kept_from_ext (rev l1 ++ x :: seen) (rev (x :: l1) ++ seen) l2)
    by (intros y; simpl; rewrite <- app_assoc; reflexivity).
  destruct (seen_in seen x); reflexivity.
Qed.

Lemma kept_from_filter seen l :
  kept_from seen l = filter (fun x => negb (seen_in seen x)) (kept_from [] l).
Proof.
  revert seen.
  assert (G : forall l seen0 seen,
             kept_from (seen0 ++ seen) l =
             filter (fun x => negb (seen_in seen x)) (kept_from seen0 l)).
  { clear l. induction l as [|x l IH]; intros seen0 seen; [reflexivity|].
    rewrite !kept_from_cons.
    destruct (seen_in seen0 x) eqn:S0.
    - assert (S1 : seen_in (seen0 ++ seen) x = true).
      { apply seen_in_true. apply in_or_app. left. now apply seen_in_true. }
      rewrite S1. apply (IH (x :: seen0) seen).
    - cbn [filter]. destruct (seen_in seen x) eqn:S.
      + assert (S1 : seen_in (seen0 ++ seen) x = true).
        { apply seen_in_true. apply in_or_app. right. now apply seen_in_true. }
        rewrite S1. apply (IH (x :: seen0) seen).
      + assert (S1 : seen_in (seen0 ++ seen) x = false).
        { destruct (seen_in (seen0 ++ seen) x) eqn:S1; [|reflexivity].
          apply seen_in_true, in_app_or in S1.
          destruct S1 as [S1|S1]; apply seen_in_true in S1; congruence. }
        rewrite S1. cbn [negb]. f_equal. apply (IH (x :: seen0) seen). }
  intros seen. apply (G l [] seen).
Qed.

(** Rows assembled from two batches, one after the other: the frame of the
    first batch, followed by the rows of the frame of the second batch
    that the first batch does not hold. *)
Theorem batches_assemble_in_order l1 l2 :
  rows (build_dataframe (l1 ++ l2)) =
  rows (build_dataframe l1) ++
  filter (fun x => negb (seen_in l1 x)) (rows (build_dataframe l2)).
Proof.
  rewrite !build_dataframe_rows. cbn [rows].
  rewrite kept_from_app, app_nil_r.
  rewrite (kept_from_ext (rev l1) l1 l2) by (intros y; symmetry; apply in_rev).
  now rewrite (kept_from_filter l1 l2).
Qed.

(** ** The scan: pieces, lengths *)

Lemma scan_reassemble r : forall s n,
  flat_map piece_text (scan r s n) = skipn n s.
Proof.
  induction s as [|c s IH]; intros n.
  - destruct n; cbn [scan]; [|reflexivity].
    destruct (match_at r []) as [[rest g]|]; reflexivity.
  - destruct n; cbn [scan skipn]; [|apply IH].
    destruct (match_at r (c :: s)) as [[rest g]|].
    + cbn [flat_map piece_text].
      destruct (length (c :: s) - length rest)%nat as [|k].
      * cbn [firstn app flat_map piece_text]. now rewrite IH.
      * cbn [firstn app]. rewrite IH. f_equal. apply firstn_skipn.
    + cbn [flat_map piece_text app]. now rewrite IH.
Qed.

Lemma scan_hit_pieces r : forall s n m g,
  In (Hit m g) (scan r s n) ->
  exists s' rest, match_at r s' = Some (rest, g) /\
    m = firstn (length s' - length rest) s'.
Proof.
  induction s as [|c s IH]; intros n m g H.
  - destruct n; cbn [scan] in H; [|contradiction].
    destruct (match_at r []) as [[rest g0]|] eqn:E; [|contradiction].
    destruct H as [H|[]]. injection H as <- <-. exists [], rest. auto.
  - destruct n; cbn [scan] in H; [|eauto].
    destruct (match_at r (c :: s)) as [[rest g0]|] eqn:E.
    + destruct H as [H|H].
      { injection H as <- <-. exists (c :: s), rest. auto. }
      destruct (length (c :: s) - length rest)%nat.
      * destruct H as [H|H]; [discriminate|eauto].
      * eauto.
    + destruct H as [H|H]; [discriminate|eauto].
Qed.

Lemma hits_count (ps : list piece) (k : nat) :
  (forall m g, In (Hit m g) ps -> (k <= length m)%nat) ->
  (k * length (hits ps) <= length (flat_map piece_text ps))%nat.
Proof.
  induction ps as [|[c|m g] ps IH]; intros H; cbn [hits flat_map piece_text].
  - simpl. lia.
  - rewrite length_app. simpl.
    assert (k * length (hits ps) <= length (flat_map piece_text ps))%nat
      by (apply IH; intros; apply (H m g); right; assumption).
    lia.
  - rewrite length_app. cbn [length].
    assert (k <= length m)%nat by (apply (H m g); left; reflexivity).
    assert (k * length (hits ps) <= length (flat_map piece_text ps))%nat
      by (apply IH; intros m' g' Hin; apply (H m' g'); right; assumption).
    lia.
Qed.

Lemma triplet_match_length s rest g :
  match_at _TRIPLET_REGEX s = Some (rest, g) ->
  (10 <= length (firstn (length s - length rest) s))%nat.
Proof.
  intros H.
  apply triplet_match_shape in H
    as (company & ws1 & vendor & ws2 & raw & -> & _ & L).
  destruct (lay_company _ _ _ _ _ _ L) as (a & b & d & e & -> & _).
  destruct (lay_ws1 _ _ _ _ _ _ L) as [N1 _].
  destruct (lay_vendor _ _ _ _ _ _ L) as [[V _] _].
  destruct (lay_ws2 _ _ _ _ _ _ L) as [N2 _].
  destruct (lay_raw _ _ _ _ _ _ L) as [N3 _].
  rewrite length_firstn, !length_app. cbn [length].
  destruct ws1; [congruence|]. destruct ws2; [congruence|].
  destruct raw; [congruence|]. cbn [length]. lia.
Qed.

(** Matches do not overlap and each takes at least ten characters (four
    for the company code, three for the vendor number, one for the name,
    two separators): a text holds at most a tenth of its length in
    records. *)
Theorem records_bounded_by_length t :
  (10 * length (extract_triplets_from_text t) <= length (or_empty t))%nat.
Proof.
  unfold extract_triplets_from_text, finditer. rewrite length_map.
  pose proof (scan_reassemble _TRIPLET_REGEX (or_empty t) 0) as R.
  cbn [skipn] in R. rewrite <- R at 2.
  apply hits_count. intros m g H.
  apply scan_hit_pieces in H as (s' & rest & E & ->).
  now apply triplet_match_length in E.
Qed.

(** The plain body is passed over only when, stripped, it has fewer than
    five characters; such a body holds no record, so the records of a
    message are those of its stripped plain body, followed, when that body
    is short, by those of its normalized HTML body. *)
Theorem rows_of_email_body_then_html msg :
  let body := strip (or_empty (Body msg)) in
  extract_rows_from_email msg =
  extract_triplets_from_text (Some body) ++
  (if (length body <? 5)%nat
   then extract_triplets_from_text (Some (html_to_text (Some (or_empty (HTMLBody msg)))))
   else []).
Proof.
  cbv zeta. unfold extract_rows_from_email.
  set (body := strip (or_empty (Body msg))).
  destruct (length body <? 5)%nat eqn:Short.
  - rewrite orb_true_r.
    pose proof (records_bounded_by_length (Some body)) as B. cbn [or_empty] in B.
    apply Nat.ltb_lt in Short.
    destruct (extract_triplets_from_text (Some body)); [reflexivity|].
    cbn [length] in B. lia.
  - assert (E : (length body =? 0)%nat = false).
    { apply Nat.eqb_neq. apply Nat.ltb_ge in Short. lia. }
    rewrite E. cbn [orb]. now rewrite app_nil_r.
Qed.

(** ** The text normalizer *)

Lemma match_at_plus p c s :
  match_at (plus p) (c :: s) =
  if p c then Some (lstrip_by p s, []) else None.
Proof.
  unfold match_at, plus. cbn [run rep_greedy may_take andb pred option_map].
  destruct (p c); [|reflexivity].
  now rewrite (rep_greedy_run p []).
Qed.

Lemma re_sub_plus_cons p repl c s :
  re_sub (plus p) repl (c :: s) =
  if p c
  then repl ++ re_sub (plus p) repl (lstrip_by p s)
  else c :: re_sub (plus p) repl s.
Proof.
  unfold re_sub. cbn [scan]. rewrite match_at_plus.
  destruct (p c); [|reflexivity].
  destruct (lstrip_by_split p s) as (pre & E & _).
  remember (lstrip_by p s) as t. subst s.
  replace (length (c :: pre ++ t) - length t)%nat with (S (length pre))
    by (change (length (c :: pre ++ t)) with (S (length (pre ++ t)));
        rewrite length_app; lia).
  rewrite scan_skip. reflexivity.
Qed.

Lemma re_sub_plus_head p s :
  match s with [] => true | d :: _ => negb (p d) end = true ->
  match re_sub (plus p) [SP] s with [] => true | d :: _ => negb (p d) end = true.
Proof.
  destruct s as [|c s]; [reflexivity|].
  intros H. rewrite re_sub_plus_cons.
  apply negb_true_iff in H. rewrite H. now rewrite H.
Qed.

Lemma re_sub_plus_collapsed p s :
  runs_collapsed p (re_sub (plus p) [SP] s) = true.
Proof.
  remember (length s) as n eqn:Hn. revert s Hn.
  induction n as [n IH] using lt_wf_ind. intros s Hn.
  destruct s as [|c s]; [reflexivity|].
  rewrite re_sub_plus_cons. destruct (p c) eqn:Pc.
  - cbn [app runs_collapsed]. apply andb_true_iff. split.
    + apply orb_true_iff. right. apply andb_true_iff. split; [reflexivity|].
      apply (re_sub_plus_head p (lstrip_by p s)).
      destruct (lstrip_by p s) as [|d t] eqn:E; [reflexivity|].
      apply lstrip_by_head in E. now rewrite E.
    + apply (IH (length (lstrip_by p s))); [|reflexivity].
      subst n. simpl. pose proof (lstrip_by_length p s). lia.
  - cbn [runs_collapsed]. rewrite Pc. simpl.
    apply (IH (length s)); [subst n; simpl; lia|reflexivity].
Qed.

Lemma runs_collapsed_suffix p pre s :
  runs_collapsed p (pre ++ s) = true -> runs_collapsed p s = true.
Proof.
  induction pre as [|c pre IH]; simpl; [auto|].
  intros H. apply andb_true_iff in H as [_ H]. auto.
Qed.

Lemma runs_collapsed_prefix p s suf :
  runs_collapsed p (s ++ suf) = true -> runs_collapsed p s = true.
Proof.
  induction s as [|c s IH]; [reflexivity|].
  cbn [app runs_collapsed]. intros H.
  apply andb_true_iff in H as [H1 H2].
  apply andb_true_iff. split; [|auto].
  destruct s; [|exact H1].
  apply orb_true_iff in H1 as [H1|H1]; apply orb_true_iff; [now left|right].
  apply andb_true_iff in H1 as [H1 _]. now rewrite H1.
Qed.

Lemma runs_collapsed_member p s c :
  runs_collapsed p s = true -> In c s -> p c = true -> c = SP.
Proof.
  induction s as [|d s IH]; [intros _ []|].
  cbn [runs_collapsed]. intros H [->|Hin] Pc.
  - apply andb_true_iff in H as [H _]. rewrite Pc in H. cbn in H.
    apply andb_true_iff in H as [H _]. now apply N.eqb_eq in H.
  - apply andb_true_iff in H as [_ H]. auto.
Qed.

Lemma runs_collapsed_no_pair p u v :
  p SP = true -> runs_collapsed p (u ++ SP :: SP :: v) = true -> False.
Proof.
  intros Pp H. apply runs_collapsed_suffix in H.
  cbn [runs_collapsed] in H. rewrite Pp in H. cbn in H. discriminate.
Qed.

(** The normalized text begins and ends with a character that is not
    whitespace, holds no tab, and holds no two spaces in a row. *)
Theorem normalized_text_is_tidy html :
  let out := html_to_text html in
  match out with
  | [] => True
  | c :: _ => is_space c = false /\ is_space (last out c) = false
  end /\
  ~ In TAB out /\
  (forall u v, out <> u ++ SP :: SP :: v).
Proof.
  cbv zeta.
  destruct html as [[|h0 h]|]; cbn [html_to_text];
    try (split; [exact I|]; split; [intros []|]; intros [|? ?] ?; discriminate).
  set (txt := re_sub re_tag [SP] _).
  assert (C : runs_collapsed is_blank (strip (re_sub re_blanks [SP] txt)) = true).
  { destruct (strip_by_split is_space (re_sub re_blanks [SP] txt))
      as (l & r & E & _ & _).
    pose proof (re_sub_plus_collapsed is_blank txt) as H.
    change (plus is_blank) with re_blanks in H. rewrite E in H.
    apply runs_collapsed_suffix in H. now apply runs_collapsed_prefix in H. }
  split; [|split].
  - destruct (strip (re_sub re_blanks [SP] txt)) as [|c t] eqn:E; [exact I|].
    now apply strip_by_ends in E.
  - intros Hin. pose proof (runs_collapsed_member _ _ _ C Hin eq_refl). discriminate.
  - intros u v E. rewrite E in C. now apply runs_collapsed_no_pair in C.
Qed.

Lemma re_sub_no_match r repl : forall s,
  (forall pre s', s = pre ++ s' -> match_at r s' = None) ->
  re_sub r repl s = s.
Proof.
  unfold re_sub. induction s as [|c s IH]; intros H; cbn [scan].
  - rewrite (H [] [] eq_refl). reflexivity.
  - rewrite (H [] (c :: s) eq_refl). cbn [flat_map app]. f_equal.
    apply IH. intros pre s' ->. apply (H (c :: pre) s'). reflexivity.
Qed.

Lemma no_match_without_lt r : forall s,
  ~ In LT s ->
  forall pre s', s = pre ++ s' -> match_at (Cat (chr "<") r) s' = None.
Proof.
  intros s N pre s' ->. unfold match_at. cbn [run chr].
  destruct s' as [|c s']; [reflexivity|].
  destruct (is_char (N_of_ascii "<") c) eqn:E; [|reflexivity].
  apply N.eqb_eq in E. subst c. exfalso. apply N.
  apply in_or_app. right. left. reflexivity.
Qed.

(** Text that holds no '<' goes through the four tag substitutions
    unchanged: what the normalizer returns for it is the text with its
    runs of spaces and tabs collapsed, stripped. *)
Theorem text_without_markup_only_tidied html :
  ~ In LT html ->
  html_to_text (Some html) = strip (re_sub re_blanks [SP] html).
Proof.
  intros N. destruct html as [|c h]; [reflexivity|].
  cbn [html_to_text].
  rewrite (re_sub_no_match re_br [LF] (c :: h)) by (now apply no_match_without_lt).
  rewrite (re_sub_no_match re_p_close [LF] (c :: h)) by (now apply no_match_without_lt).
  rewrite (re_sub_no_match re_p_open [] (c :: h)) by (now apply no_match_without_lt).
  rewrite (re_sub_no_match re_tag [SP] (c :: h)) by (now apply no_match_without_lt).
  reflexivity.
Qed.

Lemma text_without_markup_only_tidied_witness :
  html_to_text (Some (py "  SG12   999AAA ABC Co ")) =
  strip (re_sub re_blanks [SP] (py "  SG12   999AAA ABC Co ")).
Proof.
  apply text_without_markup_only_tidied.
  vm_compute. intuition discriminate.
Defined.

(** ** The matcher finds the records that are there *)

Lemma rep_greedy_take p : forall pre lo hi s' k o,
  forallb p pre = true -> (lo <= length pre)%nat -> within hi (length pre) ->
  hi = Some (length pre) \/ head_fails p s' ->
  k s' = Some o ->
  rep_greedy p lo hi (pre ++ s') k = Some o.
Proof.
  induction pre as [|c pre IH]; intros lo hi s' k o Hp Hlo Hhi Stop Hk.
  - cbn [app]. simpl in Hlo. assert (lo = 0)%nat as -> by lia.
    destruct s' as [|d s']; [exact Hk|].
    cbn [rep_greedy].
    destruct Stop as [->|Stop]; cbn [may_take andb]; [exact Hk|].
    cbn in Stop. rewrite Stop, andb_false_r. exact Hk.
  - cbn [app rep_greedy]. simpl in Hp. apply andb_true_iff in Hp as [Pc Hp].
    assert (T : may_take hi = true).
    { destruct hi as [[|h]|]; simpl in *; auto; lia. }
    rewrite T, Pc. cbn [andb].
    rewrite (IH (pred lo) (option_map pred hi) s' k o); auto.
    + simpl in Hlo. lia.
    + destruct hi as [h|]; simpl in *; [lia|exact I].
    + destruct Stop as [->|Stop]; [left; reflexivity|right; exact Stop].
Qed.

Lemma rep_lazy_take p : forall pre lo s' k o,
  forallb p pre = true -> (lo <= length pre)%nat ->
  (forall c pre2, k (c :: pre2 ++ s') <> None -> p c = false) ->
  k s' = Some o ->
  rep_lazy p lo None (pre ++ s') k = Some o.
Proof.
  induction pre as [|c pre IH]; intros lo s' k o Hp Hlo Early Hk.
  - cbn [app]. simpl in Hlo. assert (lo = 0)%nat as -> by lia.
    destruct s' as [|d s']; cbn [rep_lazy]; now rewrite Hk.
  - cbn [app rep_lazy may_take andb option_map].
    simpl in Hp. apply andb_true_iff in Hp as [Pc Hp]. rewrite Pc.
    assert (R : rep_lazy p (pred lo) None (pre ++ s') k = Some o).
    { apply IH; auto. simpl in Hlo. lia. }
    destruct lo; [|exact R].
    destruct (k (c :: pre ++ s')) eqn:E; [|exact R].
    assert (p c = false) by (apply (Early c pre); congruence). congruence.
Qed.

Lemma line_end_ahead_at_end rest g k :
  at_line_end rest -> run line_end_ahead rest g k = k rest g.
Proof.
  intros [->|[[r ->]|[r ->]]]; reflexivity.
Qed.

Lemma line_end_ahead_inside c s g k :
  not_crlf c = true -> run line_end_ahead (c :: s) g k = None.
Proof.
  unfold not_crlf. intros H. apply negb_true_iff, orb_false_iff in H as [H1 H2].
  unfold line_end_ahead, opt. cbn [run rep_greedy may_take andb].
  unfold is_char. now rewrite H1, H2.
Qed.

Lemma match_at_record company ws1 vendor ws2 raw rest :
  triplet_layout company ws1 vendor ws2 raw rest ->
  head_not_space raw = true ->
  match_at _TRIPLET_REGEX (company ++ ws1 ++ vendor ++ ws2 ++ raw ++ rest) =
  Some (rest, [("name"%string, raw); ("vendor"%string, vendor);
               ("company"%string, company)]).
Proof.
  intros L Hraw.
  destruct (lay_company _ _ _ _ _ _ L) as (a & b & d & e & -> & Ha & Hb & Hd & He).
  destruct (lay_ws1 _ _ _ _ _ _ L) as [N1 W1].
  destruct (lay_vendor _ _ _ _ _ _ L) as [[V1 V2] V3].
  destruct (lay_ws2 _ _ _ _ _ _ L) as [N2 W2].
  destruct (lay_raw _ _ _ _ _ _ L) as [N3 R3].
  pose proof (lay_rest _ _ _ _ _ _ L) as E.
  unfold match_at, _TRIPLET_REGEX, exactly, plus.
  fold line_end_ahead.
  set (LA := line_end_ahead).
  cbn [run].
  assert (Hv : exists v0 vt, vendor = v0 :: vt /\ is_space v0 = false).
  { destruct vendor as [|v0 vt]; [simpl in V1; lia|].
    exists v0, vt. split; [reflexivity|].
    simpl in V3. apply andb_true_iff in V3 as [V3 _].
    now apply negb_true_iff in V3. }
  destruct Hv as (v0 & vt & Ev & Sv).
  assert (Hw2 : exists w0 wt, ws2 = w0 :: wt /\ is_space w0 = true).
  { destruct ws2 as [|w0 wt]; [congruence|].
    exists w0, wt. split; [reflexivity|].
    simpl in W2. now apply andb_true_iff in W2 as [W2 _]. }
  destruct Hw2 as (w0 & wt & Ew & Sw).
  assert (Hr : exists r0 rt, raw = r0 :: rt /\ is_space r0 = false).
  { destruct raw as [|r0 rt]; [congruence|].
    exists r0, rt. split; [reflexivity|].
    simpl in Hraw. now apply negb_true_iff in Hraw. }
  destruct Hr as (r0 & rt & Er & Sr).
  apply (rep_greedy_take is_upper_AZ [a; b] 2 (Some 2%nat)
           ([d; e] ++ ws1 ++ vendor ++ ws2 ++ raw ++ rest));
    [simpl; now rewrite Ha, Hb|simpl; lia|simpl; lia|left; reflexivity|].
  apply (rep_greedy_take is_decimal [d; e] 2 (Some 2%nat)
           (ws1 ++ vendor ++ ws2 ++ raw ++ rest));
    [simpl; now rewrite Hd, He|simpl; lia|simpl; lia|left; reflexivity|].
  apply (rep_greedy_take is_space ws1 1 None (vendor ++ ws2 ++ raw ++ rest));
    [exact W1|destruct ws1; [congruence|simpl; lia]|exact I
    |right; rewrite Ev; exact Sv|].
  apply (rep_greedy_take not_space vendor 3 (Some 40%nat) (ws2 ++ raw ++ rest));
    [exact V3|exact V1|exact V2
    |right; rewrite Ew; unfold not_space; simpl; now rewrite Sw|].
  apply (rep_greedy_take is_space ws2 1 None (raw ++ rest));
    [exact W2|rewrite Ew; simpl; lia|exact I
    |right; rewrite Er; exact Sr|].
  apply (rep_lazy_take not_crlf raw 1 rest);
    [exact R3|rewrite Er; simpl; lia| |].
  - intros c pre2 Hk. destruct (not_crlf c) eqn:Nc; [|reflexivity].
    exfalso. apply Hk. subst LA. now apply line_end_ahead_inside.
  - subst LA. rewrite (line_end_ahead_at_end rest _ _ E).
    rewrite (firstn_length_diff raw rest).
    rewrite (firstn_length_diff vendor (ws2 ++ raw ++ rest)).
    rewrite (firstn_length_diff [a; b; d; e] (ws1 ++ vendor ++ ws2 ++ raw ++ rest)).
    reflexivity.
Qed.

Lemma scan_hit_step r m rest g :
  m <> [] -> match_at r (m ++ rest) = Some (rest, g) ->
  scan r (m ++ rest) 0 = Hit m g :: scan r rest 0.
Proof.
  intros N E. destruct m as [|c m]; [congruence|].
  cbn [app scan]. cbn [app] in E. rewrite E.
  pose proof (firstn_length_diff (c :: m) rest) as F. cbn [app] in F. rewrite F.
  assert (D : (length (c :: m ++ rest) - length rest = S (length m))%nat).
  { cbn [length]. rewrite length_app. lia. }
  rewrite D, scan_skip. reflexivity.
Qed.

Lemma render_nonempty r :
  triplet_layout (rt_company r) (rt_ws1 r) (rt_vendor r) (rt_ws2 r) (rt_name r) [] ->
  render r <> [].
Proof.
  intros L. unfold render.
  destruct (lay_company _ _ _ _ _ _ L) as (a & b & d & e & -> & _).
  discriminate.
Qed.

Lemma extract_record_then r rest :
  well_formed r -> at_line_end rest ->
  extract_triplets_from_text (Some (render r ++ rest)) =
  record_of r :: extract_triplets_from_text (Some rest).
Proof.
  intros [L Hn] E. unfold extract_triplets_from_text, finditer. cbn [or_empty].
  assert (L' : triplet_layout (rt_company r) (rt_ws1 r) (rt_vendor r) (rt_ws2 r)
                 (rt_name r) rest).
  { destruct L. constructor; auto. }
  pose proof (match_at_record _ _ _ _ _ rest L' Hn) as M.
  assert (Eq : rt_company r ++ rt_ws1 r ++ rt_vendor r ++ rt_ws2 r ++ rt_name r ++ rest =
               render r ++ rest).
  { unfold render. now rewrite <- !app_assoc. }
  rewrite Eq in M.
  rewrite (scan_hit_step _ (render r) rest _ (render_nonempty r L) M).
  cbn [hits List.map]. f_equal.
  unfold triplet_of_match, record_of. cbn [group String.eqb Ascii.eqb Bool.eqb].
  unfold strip.
  rewrite (strip_by_id is_space (rt_company r))
    by (apply (company_not_space _ (lay_company _ _ _ _ _ _ L))).
  rewrite (strip_by_id is_space (rt_vendor r))
    by (apply (lay_vendor _ _ _ _ _ _ L)).
  reflexivity.
Qed.

Lemma extract_after_line_end eol s :
  eol = [LF] \/ eol = [CR; LF] ->
  at_line_end (eol ++ s) /\
  extract_triplets_from_text (Some (eol ++ s)) = extract_triplets_from_text (Some s).
Proof.
  intros [-> | ->]; (split; [|reflexivity]).
  - right. left. simpl. eauto.
  - right. right. simpl. eauto.
Qed.

(** Records written one to a line, the lines ended by LF or by CR LF,
    each record with a well-formed company code and vendor number,
    whitespace between the fields and a name that begins with a character
    that is not whitespace and runs to the end of the line, are all found,
    in order, one record for each line. *)
Theorem records_on_lines_are_found eol rs :
  eol = [LF] \/ eol = [CR; LF] ->
  Forall well_formed rs ->
  extract_triplets_from_text (Some (join_lines eol (List.map render rs))) =
  List.map record_of rs.
Proof.
  intros Heol. induction 1 as [|r rs W F IH]; [reflexivity|].
  destruct rs as [|r' rs].
  - cbn [List.map join_lines].
    pose proof (extract_record_then r [] W (or_introl eq_refl)) as E.
    rewrite app_nil_r in E. exact E.
  - change (join_lines eol (List.map render (r :: r' :: rs)))
      with (render r ++ eol ++ join_lines eol (List.map render (r' :: rs))).
    destruct (extract_after_line_end eol
                (join_lines eol (List.map render (r' :: rs))) Heol) as [A E].
    refine (eq_trans (extract_record_then r _ W A) _).
    change (List.map record_of (r :: r' :: rs))
      with (record_of r :: List.map record_of (r' :: rs)).
    f_equal. exact (eq_trans E IH).
Qed.

Lemma records_on_lines_are_found_witness :
  extract_triplets_from_text
    (Some (join_lines [CR; LF]
       (List.map render
          [ {| rt_company := py "SG12"; rt_ws1 := [SP]; rt_vendor := py "999AAA";
               rt_ws2 := [TAB]; rt_name := py "ABC - Co |" |};
            {| rt_company := py "SG13"; rt_ws1 := [SP]; rt_vendor := py "1000";
               rt_ws2 := [SP]; rt_name := py "XYZ Inc" |} ]))) =
  [ (py "SG12", py "999AAA", py "ABC - Co"); (py "SG13", py "1000", py "XYZ Inc") ].
Proof.
  rewrite records_on_lines_are_found; [reflexivity|right; reflexivity|].
  constructor; [|constructor; [|constructor]].
  - split; [|reflexivity].
    constructor; cbn.
    + exists 83, 71, 49, 50. repeat split; reflexivity.
    + split; [discriminate|reflexivity].
    + split; [lia|reflexivity].
    + split; [discriminate|reflexivity].
    + split; [discriminate|reflexivity].
    + left. reflexivity.
  - split; [|reflexivity].
    constructor; cbn.
    + exists 83, 71, 49, 51. repeat split; reflexivity.
    + split; [discriminate|reflexivity].
    + split; [lia|reflexivity].
    + split; [discriminate|reflexivity].
    + split; [discriminate|reflexivity].
    + left. reflexivity.
Defined.

(** ** The entry point, end to end *)



(** ** No tag is left in the normalized text *)

Lemma existsb_gt_split t :
  existsb (fun c => c =? GT) t = true ->
  exists pre rest, t = pre ++ GT :: rest /\
    forallb (fun c => negb (c =? GT)) pre = true.
Proof.
  induction t as [|c t IH]; [discriminate|].
  simpl. destruct (c =? GT) eqn:E.
  - intros _. apply N.eqb_eq in E. subst c. exists [], t. auto.
  - simpl. intros H. destruct (IH H) as (pre & rest & -> & Hp).
    exists (c :: pre), rest. simpl. rewrite E, Hp. auto.
Qed.

Lemma match_tag_shape s rest g :
  match_at re_tag s = Some (rest, g) ->
  exists c1 pt, s = (LT :: c1 :: pt ++ [GT]) ++ rest /\ (c1 =? GT) = false.
Proof.
  intros H. apply match_at_sound in H.
  unfold re_tag, chr, plus in H. repeat invert_match.
  match goal with H : is_char _ ?c = true |- _ =>
    apply N.eqb_eq in H; subst c end.
  match goal with H : is_char _ ?c = true |- _ =>
    apply N.eqb_eq in H; subst c end.
  match goal with H : (1 <= length ?pre)%nat |- _ =>
    destruct pre as [|c1 pt]; [simpl in H; lia|] end.
  match goal with H : forallb _ (c1 :: pt) = true |- _ =>
    simpl in H; apply andb_true_iff in H as [H _];
    apply negb_true_iff in H end.
  exists c1, pt. split; [|assumption].
  cbn [app]. rewrite <- app_assoc. reflexivity.
Qed.

Lemma match_tag_start s o : match_at re_tag s = Some o -> tag_start s = true.
Proof.
  destruct o as [rest g]. intros H.
  apply match_tag_shape in H as (c1 & pt & -> & E).
  cbn [app tag_start]. rewrite E. cbn.
  rewrite <- app_assoc, existsb_app. cbn. apply orb_true_r.
Qed.

Lemma tag_start_match s :
  tag_start s = true -> exists rest, match_at re_tag s = Some (rest, []).
Proof.
  destruct s as [|c0 [|c1 t]]; cbn [tag_start]; try discriminate.
  - rewrite andb_false_r. discriminate.
  - intros H. apply andb_true_iff in H as [H0 H].
    apply andb_true_iff in H as [H1 H]. apply N.eqb_eq in H0. subst c0.
    apply existsb_gt_split in H as (pre & rest & -> & Hp).
    exists rest. unfold match_at, re_tag, chr, plus. cbn [run].
    change (is_char (N_of_ascii "<") LT) with true. cbv iota.
    apply (rep_greedy_take _ (c1 :: pre) 1 None (GT :: rest)).
    + cbn [forallb]. apply andb_true_iff. split; [exact H1|exact Hp].
    + simpl. lia.
    + exact I.
    + right. reflexivity.
    + reflexivity.
Qed.

Lemma no_match_no_tag_start s : match_at re_tag s = None -> tag_start s = false.
Proof.
  intros H. destruct (tag_start s) eqn:E; [|reflexivity].
  apply tag_start_match in E as [rest E]. congruence.
Qed.

Lemma re_sub_members r repl : forall s n x,
  In x (flat_map (fun p => match p with Gap c => [c] | Hit _ _ => repl end)
          (scan r s n)) ->
  In x repl \/ In x s.
Proof.
  induction s as [|c s IH]; intros n x H.
  - destruct n; cbn [scan] in H; [|contradiction].
    destruct (match_at r []) as [[rest g]|]; cbn in H; [|contradiction].
    rewrite app_nil_r in H. auto.
  - destruct n; cbn [scan] in H.
    + destruct (match_at r (c :: s)) as [[rest g]|].
      * cbn [flat_map] in H. apply in_app_or in H as [H|H]; [auto|].
        destruct (length (c :: s) - length rest)%nat.
        { cbn [flat_map app] in H. destruct H as [->|H]; [right; left; reflexivity|].
          destruct (IH _ _ H); [auto|right; right; assumption]. }
        destruct (IH _ _ H); [auto|right; right; assumption].
      * cbn [flat_map app] in H. destruct H as [->|H]; [right; left; reflexivity|].
        destruct (IH _ _ H); [auto|right; right; assumption].
    + destruct (IH _ _ H); [auto|right; right; assumption].
Qed.

Lemma re_sub_space_members r s x :
  In x (re_sub r [SP] s) -> x = SP \/ In x s.
Proof.
  intros H. apply re_sub_members in H as [[<-|[]]|H]; auto.
Qed.

Lemma re_sub_gap r repl c s :
  match_at r (c :: s) = None -> re_sub r repl (c :: s) = c :: re_sub r repl s.
Proof. intros H. unfold re_sub. cbn [scan]. now rewrite H. Qed.

Lemma re_sub_hit r repl m rest g :
  m <> [] -> match_at r (m ++ rest) = Some (rest, g) ->
  re_sub r repl (m ++ rest) = repl ++ re_sub r repl rest.
Proof.
  intros N H. unfold re_sub. now rewrite (scan_hit_step r m rest g N H).
Qed.

Lemma existsb_gt_none l :
  (forall x, In x l -> x <> GT) -> existsb (fun c => c =? GT) l = false.
Proof.
  intros H. destruct (existsb (fun c => c =? GT) l) eqn:E; [|reflexivity].
  apply existsb_exists in E as (x & Hin & Hx). apply N.eqb_eq in Hx.
  exfalso. now apply (H x).
Qed.

(** A substitution that keeps '>' in place, writes spaces and otherwise
    only drops or keeps characters cannot complete a tag after a '<' that
    began none. *)
Lemma tag_start_after (F : text -> text) c s :
  tag_start (c :: s) = false ->
  F [] = [] ->
  (forall t, F (GT :: t) = GT :: F t) ->
  (forall x t, In x (F t) -> x = SP \/ In x t) ->
  tag_start (c :: F s) = false.
Proof.
  intros H F0 Fgt Fin. cbn [tag_start] in *.
  destruct (c =? LT); [|reflexivity]. cbn [andb] in *.
  destruct s as [|c1 t]; [now rewrite F0|].
  destruct (c1 =? GT) eqn:E1.
  - apply N.eqb_eq in E1. subst c1. rewrite Fgt. reflexivity.
  - cbn [negb andb] in H.
    assert (NG : forall x, In x (F (c1 :: t)) -> x <> GT).
    { intros x Hx ->. apply Fin in Hx as [Hx|[Hx|Hx]].
      - discriminate.
      - subst c1. discriminate.
      - assert (existsb (fun c => c =? GT) t = true); [|congruence].
        apply existsb_exists. exists GT. auto. }
    destruct (F (c1 :: t)) as [|d t']; [reflexivity|].
    rewrite (existsb_gt_none t') by (intros x Hx; apply NG; right; exact Hx).
    apply andb_false_r.
Qed.

Lemma tag_free_suffix pre s : tag_free (pre ++ s) = true -> tag_free s = true.
Proof.
  induction pre as [|c pre IH]; [auto|].
  cbn [app tag_free]. intros H. apply andb_true_iff in H as [_ H]. auto.
Qed.

Lemma tag_start_prefix s suf : tag_start (s ++ suf) = false -> tag_start s = false.
Proof.
  destruct s as [|c0 [|c1 t]]; cbn [app tag_start]; [reflexivity| |].
  - intros _. apply andb_false_r.
  - rewrite existsb_app. intros H.
    destruct (c0 =? LT); [|reflexivity]. cbn [andb] in *.
    destruct (negb (c1 =? GT)); [|reflexivity]. cbn [andb] in *.
    now apply orb_false_iff in H as [H _].
Qed.

Lemma tag_free_prefix s suf : tag_free (s ++ suf) = true -> tag_free s = true.
Proof.
  induction s as [|c s IH]; [reflexivity|].
  cbn [app]. change (tag_free (c :: s ++ suf))
    with (negb (tag_start ((c :: s) ++ suf)) && tag_free (s ++ suf)).
  intros H. apply andb_true_iff in H as [H1 H2].
  cbn [tag_free]. apply andb_true_iff. split; [|auto].
  apply negb_true_iff in H1. apply negb_true_iff.
  now apply (tag_start_prefix (c :: s) suf).
Qed.

Lemma tags_removed s : tag_free (re_sub re_tag [SP] s) = true.
Proof.
  remember (length s) as n eqn:Hn. revert s Hn.
  induction n as [n IH] using lt_wf_ind. intros s Hn.
  destruct s as [|c s]; [reflexivity|].
  destruct (match_at re_tag (c :: s)) as [[rest g]|] eqn:M.
  - destruct (match_tag_shape _ _ _ M) as (c1 & pt & E & _).
    rewrite E in M |- *.
    rewrite (re_sub_hit re_tag [SP] _ rest g) by (auto; discriminate).
    cbn [app]. change (tag_free (SP :: re_sub re_tag [SP] rest))
      with (tag_free (re_sub re_tag [SP] rest)).
    apply (IH (length rest)); [|reflexivity].
    subst n. rewrite E, length_app. simpl. lia.
  - rewrite (re_sub_gap _ _ _ _ M). cbn [tag_free].
    apply andb_true_iff. split.
    + apply negb_true_iff.
      apply (tag_start_after (re_sub re_tag [SP])).
      * now apply no_match_no_tag_start.
      * reflexivity.
      * intros t. now apply re_sub_gap.
      * intros x t. apply re_sub_space_members.
    + apply (IH (length s)); [subst n; simpl; lia|reflexivity].
Qed.

Lemma blanks_keep_tag_free s :
  tag_free s = true -> tag_free (re_sub re_blanks [SP] s) = true.
Proof.
  remember (length s) as n eqn:Hn. revert s Hn.
  induction n as [n IH] using lt_wf_ind. intros s Hn T.
  destruct s as [|c s]; [reflexivity|].
  change re_blanks with (plus is_blank) in *.
  rewrite re_sub_plus_cons. destruct (is_blank c) eqn:Bc.
  - cbn [app]. change (tag_free (SP :: re_sub (plus is_blank) [SP] (lstrip_by is_blank s)))
      with (tag_free (re_sub (plus is_blank) [SP] (lstrip_by is_blank s))).
    apply (IH (length (lstrip_by is_blank s))); [|reflexivity|].
    + subst n. simpl. pose proof (lstrip_by_length is_blank s). lia.
    + destruct (lstrip_by_split is_blank s) as (pre & E & _).
      apply (tag_free_suffix (c :: pre)). cbn [app]. now rewrite <- E.
  - cbn [tag_free] in T. apply andb_true_iff in T as [T1 T2].
    cbn [tag_free]. apply andb_true_iff. split.
    + apply negb_true_iff. apply negb_true_iff in T1.
      apply (tag_start_after (re_sub (plus is_blank) [SP])).
      * exact T1.
      * reflexivity.
      * intros t. exact (re_sub_plus_cons is_blank [SP] GT t).
      * intros x t. apply re_sub_space_members.
    + apply (IH (length s)); [subst n; simpl; lia|reflexivity|exact T2].
Qed.

(** The normalized text holds no tag: nowhere in it does the pattern
    [<[^>]+>] of the fourth substitution match. *)
Theorem normalized_text_holds_no_tag html pre s :
  html_to_text html = pre ++ s -> match_at re_tag s = None.
Proof.
  intros E.
  assert (T : tag_free (html_to_text html) = true).
  { destruct html as [[|h0 h]|]; cbn [html_to_text]; try reflexivity.
    set (txt := re_sub re_p_open [] _).
    destruct (strip_by_split is_space (re_sub re_blanks [SP] (re_sub re_tag [SP] txt)))
      as (l & r & Es & _ & _).
    pose proof (blanks_keep_tag_free _ (tags_removed txt)) as H.
    rewrite Es in H. apply tag_free_suffix in H.
    now apply tag_free_prefix in H. }
  rewrite E in T. apply tag_free_suffix in T.
  destruct (match_at re_tag s) eqn:M; [|reflexivity].
  apply match_tag_start in M.
  destruct s as [|c s]; [discriminate|].
  cbn [tag_free] in T. rewrite M in T. discriminate.
Qed.

Lemma normalized_text_holds_no_tag_witness :
  match_at re_tag (py "ABC Co" ++ [LF; LF] ++ py "SG13 1000 XYZ Inc") = None.
Proof.
  apply (normalized_text_holds_no_tag (Some markup_two_records) (py "SG12 999AAA ")).
  vm_compute. reflexivity.
Defined.

(** ** What a run of the entry point leaves behind *)

Lemma find_matching_emails_inbox_state lower collection cutoff_ts n st :
  snd (find_matching_emails_inbox lower collection cutoff_ts n st) = st.
Proof.
  induction collection as [|msg collection IH]; [reflexivity|].
  cbn [find_matching_emails_inbox].
  destruct (match ReceivedTime msg with
            | Some ts => (ts <? cutoff_ts)%Z
            | None => false
            end); [exact IH|].
  unfold bind, subject_matches_call.
  destruct (subject_matches_defaults st) as [[kw ph] d].
  destruct (find_matching_emails_inbox lower collection cutoff_ts n st) as [found st'].
  cbn in IH |- *. exact IH.
Qed.

Lemma rows_of_messages_state msgs st : snd (rows_of_messages msgs st) = st.
Proof.
  induction msgs as [|msg msgs IH]; [reflexivity|].
  cbn [rows_of_messages]. unfold bind, extract_rows_from_email_call,
    extract_triplets_from_text_call.
  destruct (rows_of_messages msgs st) as [all_rows st']. cbn [snd] in IH |- *.
  exact IH.
Qed.

(** Whatever the state of the module, a run of the entry point adds two
    list objects to the store, holding the keywords and the phrases it was
    given, and leaves the two global names bound to them after it returns;
    the lists that were in the store and the defaults of
    [subject_matches] stay as they were. *)
Theorem run_rebinds_global_names lower st inbox now minutes_back n kws phs :
  let st' := snd (get_esker_vendor_updates_df lower inbox now minutes_back n kws phs st) in
  store st' = store st ++ [kws; phs] /\
  items st' (DEFAULT_SUBJECT_KEYWORDS st') = kws /\
  items st' (DEFAULT_SUBJECT_PHRASES st') = phs /\
  (forall l, (l < length (store st))%nat -> items st' l = items st l) /\
  subject_matches_defaults st' = subject_matches_defaults st.
Proof.
  cbv zeta.
  assert (E : snd (get_esker_vendor_updates_df lower inbox now minutes_back n kws phs st) =
              snd (rebind_defaults kws phs st)).
  { unfold get_esker_vendor_updates_df. unfold bind at 1.
    destruct (rebind_defaults kws phs st) as [u st1]. unfold bind.
    pose proof (find_matching_emails_inbox_state lower inbox
                  (now - minutes_back * 60000000)%Z n st1) as F.
    destruct (find_matching_emails_inbox lower inbox
                (now - minutes_back * 60000000)%Z n st1) as [found st2].
    cbn [snd] in F. subst st2.
    pose proof (rows_of_messages_state found st1) as G.
    destruct (rows_of_messages found st1) as [all_rows st3].
    cbn [snd] in G |- *. exact G. }
  rewrite E. destruct (rebind_defaults_names st kws phs) as [E1 E2].
  split; [cbn; now rewrite <- app_assoc|].
  split; [exact E1|]. split; [exact E2|]. split; [|reflexivity].
  intros l Hl. unfold items. cbn. rewrite <- app_assoc.
  now apply app_nth1.
Qed.

(** ** Names are in normal form *)

Lemma single_spaced_runs s : single_spaced s = runs_collapsed is_space s.
Proof. induction s as [|c s IH]; [reflexivity|]. simpl. now rewrite IH. Qed.

Lemma re_sub_plus_fixed p s :
  runs_collapsed p s = true -> re_sub (plus p) [SP] s = s.
Proof.
  induction s as [|c s IH]; [reflexivity|].
  cbn [runs_collapsed]. intros H. apply andb_true_iff in H as [H1 H2].
  rewrite re_sub_plus_cons. destruct (p c) eqn:Pc.
  - cbn [negb orb] in H1. apply andb_true_iff in H1 as [Ec Hs].
    apply N.eqb_eq in Ec. subst c. cbn [app]. f_equal.
    assert (L : lstrip_by p s = s).
    { destruct s as [|d s]; [reflexivity|].
      cbn [lstrip_by]. apply negb_true_iff in Hs. now rewrite Hs. }
    rewrite L. now apply IH.
  - f_equal. now apply IH.
Qed.

Lemma strip_by_fixed p s :
  match s with
  | [] => True
  | c :: _ => p c = false /\ p (last s c) = false
  end ->
  strip_by p s = s.
Proof.
  destruct s as [|c t]; [reflexivity|]. intros [Hc Hl].
  unfold strip_by, rstrip_by. cbn [lstrip_by]. rewrite Hc.
  destruct (exists_last (l := c :: t)) as (u & z & E); [discriminate|].
  rewrite E in Hl |- *. rewrite last_last in Hl.
  rewrite rev_app_distr. cbn [rev app lstrip_by]. rewrite Hl.
  cbn [rev]. now rewrite rev_involutive.
Qed.

Lemma in_last (s : text) d : s <> [] -> In (last s d) s.
Proof.
  intros N. destruct (exists_last N) as (u & z & ->).
  rewrite last_last. apply in_or_app. right. left. reflexivity.
Qed.

(** The name of every record is in normal form: cleaning it once more
    (stripping, collapsing whitespace, trimming the separators) gives the
    same name. *)
Theorem record_names_are_clean t company vendor name :
  In (company, vendor, name) (extract_triplets_from_text t) ->
  clean_name name = name.
Proof.
  intros H. apply record_fields in H as (pre & ws1 & ws2 & raw & rest & _ & _ & ->).
  destruct (clean_name_spec raw) as (S & T & _).
  set (name := clean_name raw) in *.
  assert (Ends : match name with
                 | [] => True
                 | c :: _ => mem separators c = false /\
                             mem separators (last name c) = false
                 end).
  { unfold trimmed_of in T. destruct name as [|c nt]; [exact I|].
    apply andb_true_iff in T as [T1 T2].
    now apply negb_true_iff in T1, T2. }
  rewrite single_spaced_runs in S.
  assert (NotSp : forall c, In c name -> mem separators c = false -> is_space c = false).
  { intros c Hin Hm. destruct (is_space c) eqn:Sc; [|reflexivity].
    rewrite (runs_collapsed_member _ _ _ S Hin Sc) in Hm. discriminate. }
  unfold clean_name at 1.
  assert (E1 : strip name = name).
  { apply strip_by_fixed. destruct name as [|c nt] eqn:En; [exact I|].
    destruct Ends as [A B]. split.
    - apply NotSp; [left; reflexivity|exact A].
    - apply NotSp; [apply in_last; discriminate|exact B]. }
  rewrite E1.
  change re_spaces with (plus is_space).
  rewrite (re_sub_plus_fixed is_space name S).
  apply strip_by_fixed. exact Ends.
Qed.

Lemma record_names_are_clean_witness :
  clean_name (py "ABC Co") = py "ABC Co".
Proof.
  apply (record_names_are_clean (Some (html_to_text (Some markup_two_records)))
           (py "SG12") (py "999AAA")).
  vm_compute. left. reflexivity.
Defined.
